(** * drgn: the command-line composition layer ([drgn/cli.py])

    A shallow embedding of the two closures that [main] hands to
    [Program] ([lookup_variable] and [read_memory]), of the path list
    [main] builds for [DwarfIndex], and of the collaborators they call,
    together with the properties of the design document that concern
    them. Python integers are unbounded, hence [Z]; a [dict] is a
    [gmap]; an exception is the left summand of a result. *)

From Stdlib.Strings Require Import Byte.
From Stdlib Require Import HexadecimalString HexadecimalZ.
From stdpp Require Import gmap strings list.

Local Open Scope Z_scope.

(** ** Exceptions and results *)

(** The exceptions that can leave the modelled code: those of Python
    itself, and the failures the design document names for the debug index
    and the type resolver. *)
Inductive exn : Type :=
  | ValueError (msg : string)
  | KeyError (key : string)
  | IndexError
  | OSError (errno : Z)
  | SystemExit (msg : string)
  | NotFound
  | MissingAttribute (attribute : string)
  | UnsupportedType
  | OverflowError.

Definition result (A : Type) : Type := (exn + A)%type.

Definition is_ok {A} (r : result A) : bool :=
  match r with inr _ => true | inl _ => false end.

(** ** The memory image: program headers and the core file *)

(** One entry of the segment table, as [parse_elf_phdrs] hands it over
    (the fields of an [Elf64_Phdr]). *)
Record Phdr : Type := mkPhdr {
  p_type : Z;
  p_flags : Z;
  p_offset : Z;
  p_vaddr : Z;
  p_paddr : Z;
  p_filesz : Z;
  p_memsz : Z;
  p_align : Z
}.

(** The open core file: its bytes, and the positioned reads issued on its
    descriptor so far, oldest first, as (size, offset). *)
Record core : Type := mkCore {
  core_bytes : list Byte.byte;
  core_preads : list (Z * Z)
}.

(** Computations on the core file: a result and the file afterwards. *)
Definition io (A : Type) : Type := core → result A * core.

Definition EINVAL : Z := 22.

(** The bounds of the C types the arguments of [os.pread] are converted
    to ([Py_ssize_t] and [off_t], both 64-bit), and the most bytes one
    read on Linux transfers ([MAX_RW_COUNT]). *)
Definition PY_SSIZE_T_MAX : Z := 2 ^ 63 - 1.
Definition OFF_T_MAX : Z := 2 ^ 63 - 1.
Definition MAX_RW_COUNT : Z := 0x7ffff000.

(** [os.pread(fd, size, offset)] on Linux, in a process that can allocate
    the buffer of [size] bytes. An argument outside its C type raises
    [OverflowError] and a negative size [OSError(EINVAL)], both before any
    system call. The system call refuses a negative offset and a range
    that ends beyond the largest offset; otherwise it returns the bytes of
    the file from [offset] on: [size] of them, but at most [MAX_RW_COUNT],
    and fewer at the end of the file. *)
Definition os_pread (size offset : Z) : io (list Byte.byte) :=
  λ c,
    if (size <? - 2 ^ 63) || (PY_SSIZE_T_MAX <? size)
       || (offset <? - 2 ^ 63) || (OFF_T_MAX <? offset)
    then (inl OverflowError, c)
    else if size <? 0 then (inl (OSError EINVAL), c)
    else
      let c' := mkCore (core_bytes c) (core_preads c ++ [(size, offset)]) in
      if (offset <? 0) || (OFF_T_MAX <? offset + size)
      then (inl (OSError EINVAL), c')
      else (inr (take (Z.to_nat (Z.min size MAX_RW_COUNT))
                   (drop (Z.to_nat offset) (core_bytes c))), c').

(** [f'{address:x}'] *)
Definition format_x (address : Z) : string :=
  NilZero.string_of_int (Z.to_hex_int address).

(** The test of the loop of [read_memory]:
    [phdr.p_vaddr <= address <= phdr.p_vaddr + phdr.p_memsz]. *)
Definition phdr_test (phdr : Phdr) (address : Z) : bool :=
  (p_vaddr phdr <=? address) && (address <=? p_vaddr phdr + p_memsz phdr).

(** The [for phdr in phdrs: if ...: break] loop: the header the loop
    variable is bound to at the [break], [None] when the [else] branch of
    the loop runs. *)
Fixpoint find_phdr (phdrs : list Phdr) (address : Z) : option Phdr :=
  match phdrs with
  | [] => None
  | phdr :: rest =>
      if phdr_test phdr address then Some phdr else find_phdr rest address
  end.

Definition read_memory (phdrs : list Phdr) (address size : Z) : io (list Byte.byte) :=
  λ c,
    match find_phdr phdrs address with
    | None =>
        (inl (ValueError ("could not find memory segment containing 0x"
                            +:+ format_x address)), c)
    | Some phdr =>
        os_pread size (p_offset phdr + address - p_vaddr phdr) c
    end.

(** *** The translation as the design document words it *)

(** A segment contains an address when the address lies in the half-open
    range [[start, start + length)]. *)
Definition contains (phdr : Phdr) (address : Z) : bool :=
  (p_vaddr phdr <=? address) && (address <? p_vaddr phdr + p_memsz phdr).

(** [translate]: the first segment, in table order, that contains the
    address. *)
Fixpoint translate_doc (phdrs : list Phdr) (address : Z) : option Phdr :=
  match phdrs with
  | [] => None
  | phdr :: rest =>
      if contains phdr address then Some phdr else translate_doc rest address
  end.

(** A segment of the given start, length and file offset. *)
Definition segment (start length offset : Z) : Phdr :=
  mkPhdr 1 0 offset start 0 length length 0.

(** The header with another memory size. *)
Definition with_memsz (phdr : Phdr) (memsz : Z) : Phdr :=
  mkPhdr (p_type phdr) (p_flags phdr) (p_offset phdr) (p_vaddr phdr)
         (p_paddr phdr) (p_filesz phdr) memsz (p_align phdr).

(** An image of so many 4096-byte pages, every byte of a page being the
    number of the page. *)
Definition paged_image (pages : nat) : list Byte.byte :=
  flat_map (λ page, replicate (Z.to_nat 4096) (default Byte.x00 (Byte.of_nat page)))
           (seq 0 pages).

(** A freshly opened core file. *)
Definition opened (bytes : list Byte.byte) : core := mkCore bytes [].

(** ** The symbol table *)

(** A small error monad for the straight-line code. *)
Definition ret {A} (x : A) : result A := inr x.

Definition bind {A B} (m : result A) (k : A → result B) : result B :=
  match m with
  | inl e => inl e
  | inr x => k x
  end.

Notation "x ←! m ; k" := (bind m (λ x, k))
  (at level 20, m at level 100, k at level 200, only parsing).

(** One line of the symbol listing. *)
Record symbol_entry : Type := mkEntry {
  entry_address : Z;
  entry_kind : string;
  entry_name : string;
  entry_module : option string
}.

Definition hex_digit (a : Ascii.ascii) : option Z :=
  let n := Z.of_N (Ascii.N_of_ascii a) in
  if (48 <=? n) && (n <=? 57) then Some (n - 48)
  else if (97 <=? n) && (n <=? 102) then Some (n - 87)
  else if (65 <=? n) && (n <=? 70) then Some (n - 55)
  else None.

Fixpoint hex_value (s : string) (acc : Z) : option Z :=
  match s with
  | EmptyString => Some acc
  | String a rest =>
      match hex_digit a with
      | Some d => hex_value rest (16 * acc + d)
      | None => None
      end
  end.

(** [int(s, 16)] on a run of hexadecimal digits. *)
Definition int16 (s : string) : result Z :=
  match s with
  | EmptyString => inl (ValueError "invalid literal for int() with base 16")
  | _ =>
      match hex_value s 0 with
      | Some n => ret n
      | None => inl (ValueError "invalid literal for int() with base 16")
      end
  end.

(** Modelled from the spec: the line format of [parse_symbol_file]
    ([drgn.util], not part of these sources). A line encodes an address
    in hexadecimal, a one-character kind marker, a name and an optional
    owning-module suffix, separated by white space; a line with fewer
    fields or with an address that is not hexadecimal raises. *)
Definition parse_symbol_line (line : string) : result symbol_entry :=
  match String.words line with
  | address :: kind :: name :: rest =>
      a ←! int16 address;
      ret (mkEntry a kind name (head rest))
  | _ => inl IndexError
  end.

(** [symbols.setdefault(name, []).append(address)] *)
Definition add_symbol (symbols : gmap string (list Z)) (entry : symbol_entry)
    : gmap string (list Z) :=
  <[entry_name entry := default [] (symbols !! entry_name entry)
                          ++ [entry_address entry]]> symbols.

Fixpoint parse_symbol_lines (lines : list string)
    (symbols : gmap string (list Z)) : result (gmap string (list Z)) :=
  match lines with
  | [] => ret symbols
  | line :: rest =>
      entry ←! parse_symbol_line line;
      parse_symbol_lines rest (add_symbol symbols entry)
  end.

(** Modelled from the spec: [parse_symbol_file] ([drgn.util], not part of
    these sources). Parsing groups the entries by name and keeps, for each
    name, its addresses in the order of the listing; duplicate names
    accumulate their addresses. *)
Definition parse_symbol_file (lines : list string)
    : result (gmap string (list Z)) :=
  parse_symbol_lines lines ∅.

(** The entries of a listing, in listing order, and the addresses the
    listing records for a name, in listing order. *)
Definition listed (lines : list string) : list symbol_entry :=
  omap (λ line, match parse_symbol_line line with
                | inr entry => Some entry
                | inl _ => None
                end) lines.

Definition recorded (lines : list string) (name : string) : list Z :=
  entry_address <$> filter (λ entry, entry_name entry = name) (listed lines).

(** [d[key]] on a dict and [l[-1]] on a list. *)
Definition dict_getitem {V} (d : gmap string V) (key : string) : result V :=
  match d !! key with
  | Some v => ret v
  | None => inl (KeyError key)
  end.

Definition list_last {V} (l : list V) : result V :=
  match last l with
  | Some v => ret v
  | None => inl IndexError
  end.

(** The first statement of [lookup_variable]: [symbols[name][-1]]. *)
Definition symbol_address (symbols : gmap string (list Z)) (name : string)
    : result Z :=
  l ←! dict_getitem symbols name;
  list_last l.

(** ** [lookup_variable] *)

(** [DW_TAG.variable] *)
Definition DW_TAG_variable : Z := 0x34.

Section lookup_variable.

(** The debug index and the type index are objects with caches of their
    own: [index] is their joint state, and each of their methods returns
    its result with the state afterwards. *)
Context {index Die Ty : Type}.

Variable dwarf_index_find : string → Z → index → result Die * index.
Variable die_type : Die → index → result Die * index.
Variable find_dwarf_type : Die → index → result Ty * index.

Definition lookup_variable (symbols : gmap string (list Z)) (name : string)
    (i : index) : result (Z * Ty) * index :=
  match symbol_address symbols name with
  | inl e => (inl e, i)
  | inr address =>
      match dwarf_index_find name DW_TAG_variable i with
      | (inl e, i1) => (inl e, i1)
      | (inr die, i1) =>
          match die_type die i1 with
          | (inl e, i2) => (inl e, i2)
          | (inr dwarf_type, i2) =>
              match find_dwarf_type dwarf_type i2 with
              | (inl e, i3) => (inl e, i3)
              | (inr ty, i3) => (inr (address, ty), i3)
              end
          end
      end
  end.

End lookup_variable.

(** ** The path list of [main] *)

(** The parsed command line. *)
Record Namespace : Type := mkArgs {
  kernel : bool;
  executable : option string;
  script : list string
}.

Section main.

(** The file system as [os.path.exists] and [glob.glob(..., recursive=True)]
    see it, and [platform.release()]. *)
Variable os_path_exists : string → bool.
Variable glob_glob : string → list string.
Variable platform_release : string.

Definition find_vmlinux (release : string) : result string :=
  let paths := [
    "/usr/lib/debug/lib/modules/" +:+ release +:+ "/vmlinux";
    "/boot/vmlinux-" +:+ release;
    "/lib/modules/" +:+ release +:+ "/build/vmlinux"
  ] in
  match List.find os_path_exists paths with
  | Some path => ret path
  | None => inl (ValueError "")
  end.

Fixpoint first_nonempty (globbed : list (list string)) : list string :=
  match globbed with
  | [] => []
  | paths :: rest =>
      match paths with
      | [] => first_nonempty rest
      | _ => paths
      end
  end.

Definition find_modules (release : string) : list string :=
  let patterns := [
    "/usr/lib/debug/lib/modules/" +:+ release +:+ "/kernel/**/*.ko.debug";
    "/lib/modules/" +:+ release +:+ "/kernel/**/*.ko"
  ] in
  first_nonempty (map glob_glob patterns).

(** [main] from the parsed arguments up to the call [DwarfIndex(paths)]:
    the lines printed to the standard error stream, and either the exit
    or the argument of that call. *)
Definition main_paths (args : Namespace) : list string * result (list string) :=
  if negb (kernel args) then
    ([], inl (SystemExit "Only --kernel mode is currently implemented"))
  else
    let release := platform_release in
    let exe :=
      match executable args with
      | Some path => ret path
      | None =>
          match find_vmlinux release with
          | inr path => ret path
          | inl _ =>
              inl (SystemExit "Could not find vmlinux file; install the proper debuginfo package or use --executable")
          end
      end in
    match exe with
    | inl e => ([], inl e)
    | inr exe =>
        let paths := find_modules release in
        let err :=
          if bool_decide (paths = []) && bool_decide (script args = [])
          then ["Could not find kernel modules; continuing anyways"]
          else [] in
        (err, ret (paths ++ [exe]))
    end.

End main.

(** The candidate paths of [find_vmlinux] and the patterns of
    [find_modules], in the order the functions try them. *)
Definition vmlinux_paths (release : string) : list string :=
  [ "/usr/lib/debug/lib/modules/" +:+ release +:+ "/vmlinux";
    "/boot/vmlinux-" +:+ release;
    "/lib/modules/" +:+ release +:+ "/build/vmlinux" ].

Definition debug_modules_pattern (release : string) : string :=
  "/usr/lib/debug/lib/modules/" +:+ release +:+ "/kernel/**/*.ko.debug".

Definition plain_modules_pattern (release : string) : string :=
  "/lib/modules/" +:+ release +:+ "/kernel/**/*.ko".

(** A file system on which only the given path exists. *)
Definition only_file (path : string) : string → bool := String.eqb path.

(** A machine of release 4.15 with one module and no debug packages, and
    a command line that names the executable. *)
Definition only_plain_modules (pattern : string) : list string :=
  if String.eqb pattern "/lib/modules/4.15/kernel/**/*.ko"
  then ["/lib/modules/4.15/kernel/fs/xfs/xfs.ko"]
  else [].

Definition kernel_args : Namespace :=
  mkArgs true (Some "/tmp/vmlinux") [].

(** Modelled from the spec: the resolution policy of [DwarfIndex]
    ([drgn.dwarfindex], not part of these sources). Each binary
    contributes the records it defines, none when it cannot be read or
    has no debug information; [find] scans the binaries in the order the
    caller supplied and returns the record of the first binary that has a
    match for the (name, kind) pair. *)
Module DwarfIndex.

Section find.

Context {Die : Type}.

(** The records of the binary at a path, by (name, kind). *)
Variable defines : string → string → Z → option Die.

Fixpoint find (paths : list string) (name : string) (kind : Z) : result Die :=
  match paths with
  | [] => inl NotFound
  | path :: rest =>
      match defines path name kind with
      | Some die => ret die
      | None => find rest name kind
      end
  end.

End find.

End DwarfIndex.

(** ** The type resolver *)

(** Modelled from the spec: the debug records, the type descriptors and
    [TypeResolver.resolve] ([drgn.dwarf] and [drgn.typeindex], not part of
    these sources). A record has a kind, an optional name, an attribute
    map and an ordered list of children; its identity (compile unit and
    byte offset) is the key under which the debug information holds it,
    and an attribute refers to another record by that key. A descriptor
    refers to another descriptor by the key of its slot in the arena. The
    resolver dispatches on the kind, registers an in-progress slot under
    the identity of the record, resolves the referenced records in order,
    and fills the slot in place; a reference to an identity that has a
    slot, filled or in progress, returns that slot. What the document does
    not fix is chosen as follows: an absent type reference of a pointer, a
    qualified type, a typedef, an enumeration or a function type stands
    for [Void]; a reference to an identity without a record is a missing
    type attribute. A failure is a function of the records alone: a
    resolution that fails discards its placeholder and what was filled on
    the way, and leaves the arena as it was before the call, so that a
    placeholder exists only while its resolution runs. *)
Module TypeResolver.

Local Set Warnings "-register-all".

(** Compile unit and byte offset. *)
Abbreviation ident := (N * N)%type.

Inductive qualifier : Type := q_const | q_volatile | q_restrict.

Inductive kind : Type :=
  | k_variable
  | k_subroutine
  | k_structure_type
  | k_union_type
  | k_pointer_type
  | k_base_type
  | k_typedef
  | k_array_type
  | k_enumeration_type
  | k_qualified_type (q : qualifier)
  | k_subroutine_type
  | k_member
  | k_enumerator
  | k_formal_parameter
  | k_other (tag : Z).

Inductive attr_value : Type :=
  | a_const (n : Z)
  | a_string (s : string)
  | a_ref (target : ident).

Inductive DebugRecord : Type := mkRecord {
  rec_kind : kind;
  rec_name : option string;
  rec_attrs : gmap string attr_value;
  rec_children : list DebugRecord
}.

Inductive type_ref : Type :=
  | to_void
  | to_key (key : ident).

Record Member : Type := mkMember {
  member_name : option string;
  member_offset : Z;
  member_type : type_ref
}.

Inductive TypeDescriptor : Type :=
  | Void
  | Base (name : string) (size encoding : Z)
  | Pointer (referent : type_ref)
  | Array (element : type_ref) (length : option Z)
  | Struct (name : option string) (size : Z) (members : list Member)
  | Union (name : option string) (size : Z) (members : list Member)
  | Enum (name : option string) (underlying : type_ref)
         (enumerators : list (string * Z))
  | Typedef (name : string) (underlying : type_ref)
  | Qualified (q : qualifier) (underlying : type_ref)
  | Function (returnType : type_ref) (paramTypes : list type_ref).

(** A slot of the arena: the placeholder of a resolution in progress, or
    the descriptor. *)
Inductive slot : Type :=
  | InProgress
  | Ready (descriptor : TypeDescriptor).

(** *** Attributes *)

Definition const_attr (record : DebugRecord) (attribute : string) : result Z :=
  match rec_attrs record !! attribute with
  | Some (a_const n) => ret n
  | _ => inl (MissingAttribute attribute)
  end.

Definition const_attr_opt (record : DebugRecord) (attribute : string) : option Z :=
  match rec_attrs record !! attribute with
  | Some (a_const n) => Some n
  | _ => None
  end.

Definition type_attr (record : DebugRecord) : result type_ref :=
  match rec_attrs record !! "type" with
  | Some (a_ref target) => ret (to_key target)
  | _ => inl (MissingAttribute "type")
  end.

Definition type_attr_or_void (record : DebugRecord) : type_ref :=
  match rec_attrs record !! "type" with
  | Some (a_ref target) => to_key target
  | _ => to_void
  end.

Definition name_attr (record : DebugRecord) : result string :=
  match rec_name record with
  | Some name => ret name
  | None => inl (MissingAttribute "name")
  end.

Definition is_kind (k : kind) (record : DebugRecord) : bool :=
  match k, rec_kind record with
  | k_member, k_member => true
  | k_enumerator, k_enumerator => true
  | k_formal_parameter, k_formal_parameter => true
  | _, _ => false
  end.

(** [[f(x) for x in xs]] with an [f] that can raise. *)
Fixpoint traverse {A B} (f : A → result B) (xs : list A) : result (list B) :=
  match xs with
  | [] => ret []
  | x :: rest =>
      y ←! f x;
      ys ←! traverse f rest;
      ret (y :: ys)
  end.

(** The members of a structure keep their declared order and offsets; a
    member of a union sits at offset 0 when it declares none. *)
Definition member_of (in_union : bool) (child : DebugRecord) : result Member :=
  offset ←! (if in_union
             then ret (default 0 (const_attr_opt child "data_member_location"))
             else const_attr child "data_member_location");
  type ←! type_attr child;
  ret (mkMember (rec_name child) offset type).

Definition members_of (in_union : bool) (record : DebugRecord) : result (list Member) :=
  traverse (member_of in_union) (List.filter (is_kind k_member) (rec_children record)).

Definition enumerator_of (child : DebugRecord) : result (string * Z) :=
  name ←! name_attr child;
  value ←! const_attr child "const_value";
  ret (name, value).

(** The descriptor of a record, with its references as keys: the dispatch
    on the kind. *)
Definition describe (record : DebugRecord) : result TypeDescriptor :=
  match rec_kind record with
  | k_base_type =>
      name ←! name_attr record;
      size ←! const_attr record "byte_size";
      encoding ←! const_attr record "encoding";
      ret (Base name size encoding)
  | k_pointer_type => ret (Pointer (type_attr_or_void record))
  | k_array_type =>
      element ←! type_attr record;
      ret (Array element (const_attr_opt record "count"))
  | k_structure_type =>
      size ←! const_attr record "byte_size";
      members ←! members_of false record;
      ret (Struct (rec_name record) size members)
  | k_union_type =>
      size ←! const_attr record "byte_size";
      members ←! members_of true record;
      ret (Union (rec_name record) size members)
  | k_enumeration_type =>
      enumerators ←! traverse enumerator_of
                       (List.filter (is_kind k_enumerator) (rec_children record));
      ret (Enum (rec_name record) (type_attr_or_void record) enumerators)
  | k_typedef =>
      name ←! name_attr record;
      ret (Typedef name (type_attr_or_void record))
  | k_qualified_type q => ret (Qualified q (type_attr_or_void record))
  | k_subroutine_type =>
      params ←! traverse type_attr
                  (List.filter (is_kind k_formal_parameter) (rec_children record));
      ret (Function (type_attr_or_void record) params)
  | _ => inl UnsupportedType
  end.

(** The references a descriptor holds, in order. *)
Definition refs_of (descriptor : TypeDescriptor) : list type_ref :=
  match descriptor with
  | Void | Base _ _ _ => []
  | Pointer referent => [referent]
  | Array element _ => [element]
  | Struct _ _ members | Union _ _ members => member_type <$> members
  | Enum _ underlying _ | Typedef _ underlying | Qualified _ underlying =>
      [underlying]
  | Function returnType paramTypes => returnType :: paramTypes
  end.

Definition key_of (r : type_ref) : option ident :=
  match r with
  | to_void => None
  | to_key key => Some key
  end.

Definition keys_of (descriptor : TypeDescriptor) : list ident :=
  omap key_of (refs_of descriptor).

(** *** Resolution *)

(** The outcome of a call: [None] when the recursion went deeper than the
    given bound, otherwise the result and the arena afterwards. *)
Abbreviation outcome A := (option (result A * gmap ident slot)).

(** Resolve the referenced records in order, stopping at the first one
    that fails. *)
Fixpoint resolve_each (step : ident → gmap ident slot → outcome ident)
    (keys : list ident) (arena : gmap ident slot) : outcome unit :=
  match keys with
  | [] => Some (ret (), arena)
  | key :: rest =>
      match step key arena with
      | None => None
      | Some (inl e, arena') => Some (inl e, arena')
      | Some (inr _, arena') => resolve_each step rest arena'
      end
  end.

(** [resolve]: the key of the slot that holds the descriptor of the record
    of identity [id]. [depth] bounds the depth of the recursion. *)
Fixpoint resolve (depth : nat) (records : gmap ident DebugRecord)
    (id : ident) (arena : gmap ident slot) : outcome ident :=
  match depth with
  | O => None
  | S depth' =>
      match arena !! id with
      | Some _ => Some (ret id, arena)
      | None =>
          match records !! id with
          | None => Some (inl (MissingAttribute "type"), arena)
          | Some record =>
              match describe record with
              | inl e => Some (inl e, arena)
              | inr descriptor =>
                  let arena1 := <[id := InProgress]> arena in
                  match resolve_each (resolve depth' records)
                          (keys_of descriptor) arena1 with
                  | None => None
                  | Some (inl e, _) => Some (inl e, arena)
                  | Some (inr _, arena2) =>
                      Some (ret id, <[id := Ready descriptor]> arena2)
                  end
              end
          end
      end
  end.

(** The resolver without the placeholder: the slot is written only once
    the referenced records are resolved. For comparison with [resolve]. *)
Fixpoint resolve_late (depth : nat) (records : gmap ident DebugRecord)
    (id : ident) (arena : gmap ident slot) : outcome ident :=
  match depth with
  | O => None
  | S depth' =>
      match arena !! id with
      | Some _ => Some (ret id, arena)
      | None =>
          match records !! id with
          | None => Some (inl (MissingAttribute "type"), arena)
          | Some record =>
              match describe record with
              | inl e => Some (inl e, arena)
              | inr descriptor =>
                  match resolve_each (resolve_late depth' records)
                          (keys_of descriptor) arena with
                  | None => None
                  | Some (inl e, _) => Some (inl e, arena)
                  | Some (inr _, arena2) =>
                      Some (ret id, <[id := Ready descriptor]> arena2)
                  end
              end
          end
      end
  end.

(** Following a reference in the arena. *)
Definition deref (arena : gmap ident slot) (r : type_ref) : option TypeDescriptor :=
  match r with
  | to_void => Some Void
  | to_key key =>
      match arena !! key with
      | Some (Ready descriptor) => Some descriptor
      | _ => None
      end
  end.

(** The records a record refers to, as the debug information has them. *)
Definition references (records : gmap ident DebugRecord) (id : ident) : list ident :=
  match records !! id with
  | Some record =>
      match describe record with
      | inr descriptor => keys_of descriptor
      | inl _ => []
      end
  | None => []
  end.

(** *** The resolved graph *)

(** Every filled slot holds the descriptor of the record of its key, and
    every key a filled slot refers to has a slot. *)
Definition settled (records : gmap ident DebugRecord)
    (arena : gmap ident slot) : Prop :=
  ∀ key descriptor, arena !! key = Some (Ready descriptor) →
    (∃ record, records !! key = Some record ∧ describe record = inr descriptor)
    ∧ ∀ key', key' ∈ keys_of descriptor → is_Some (arena !! key').

(** No resolution is in progress. *)
Definition quiescent (arena : gmap ident slot) : Prop :=
  ∀ key, arena !! key ≠ Some InProgress.

(** [arena'] keeps every slot of [arena] as it is, and has the same
    resolutions in progress. *)
Definition extends (arena arena' : gmap ident slot) : Prop :=
  (∀ key s, arena !! key = Some s → arena' !! key = Some s)
  ∧ (∀ key, arena' !! key = Some InProgress → arena !! key = Some InProgress).

(** Every record of [keys] has a descriptor, and refers to records of
    [keys] only. *)
Definition describable (records : gmap ident DebugRecord)
    (keys : gset ident) : Prop :=
  ∀ key, key ∈ keys →
    ∃ record descriptor,
      records !! key = Some record
      ∧ describe record = inr descriptor
      ∧ ∀ key', key' ∈ keys_of descriptor → key' ∈ keys.

(** The slot of [from] is filled and refers to the slot of [to]. *)
Definition points_to (arena : gmap ident slot) (from to : ident) : Prop :=
  ∃ descriptor, arena !! from = Some (Ready descriptor) ∧ to ∈ keys_of descriptor.

(** A chain of references that starts at [from] and visits [path]. *)
Fixpoint chain (edge : ident → ident → Prop) (from : ident)
    (path : list ident) : Prop :=
  match path with
  | [] => True
  | key :: rest => edge from key ∧ chain edge key rest
  end.

(** *** A list node and the pointer to it *)

Definition node_id : ident := (0%N, 0x2d%N).
Definition node_ptr_id : ident := (0%N, 0x5a%N).
Definition int_id : ident := (0%N, 0x61%N).

Definition int_record : DebugRecord :=
  mkRecord k_base_type (Some "int")
    {[ "byte_size" := a_const 4; "encoding" := a_const 5 ]} [].

(** [struct node { int value; struct node *next; }] *)
Definition node_record : DebugRecord :=
  mkRecord k_structure_type (Some "node")
    {[ "byte_size" := a_const 16 ]}
    [ mkRecord k_member (Some "value")
        {[ "data_member_location" := a_const 0; "type" := a_ref int_id ]} [];
      mkRecord k_member (Some "next")
        {[ "data_member_location" := a_const 8; "type" := a_ref node_ptr_id ]} [] ].

Definition node_ptr_record : DebugRecord :=
  mkRecord k_pointer_type None
    {[ "byte_size" := a_const 8; "type" := a_ref node_id ]} [].

Definition node_records : gmap ident DebugRecord :=
  {[ node_id := node_record; node_ptr_id := node_ptr_record; int_id := int_record ]}.

(** The arena after resolving the pointer. *)
Definition node_arena : gmap ident slot :=
  {[ node_ptr_id := Ready (Pointer (to_key node_id));
     node_id := Ready (Struct (Some "node") 16
                         [ mkMember (Some "value") 0 (to_key int_id);
                           mkMember (Some "next") 8 (to_key node_ptr_id) ]);
     int_id := Ready (Base "int" 4 5) ]}.

End TypeResolver.

(** ** Properties of [read_memory] *)

Section read_memory_facts.

Implicit Types (phdrs pre post : list Phdr) (phdr s : Phdr)
               (address size : Z) (c : core).

Lemma phdr_test_spec phdr address :
  phdr_test phdr address = true ↔
  p_vaddr phdr ≤ address ≤ p_vaddr phdr + p_memsz phdr.
Proof. unfold phdr_test. rewrite andb_true_iff, !Z.leb_le. tauto. Qed.

Lemma contains_spec phdr address :
  contains phdr address = true ↔
  p_vaddr phdr ≤ address < p_vaddr phdr + p_memsz phdr.
Proof.
  unfold contains. rewrite andb_true_iff, Z.leb_le, Z.ltb_lt. tauto.
Qed.

Lemma contains_phdr_test phdr address :
  contains phdr address = true → phdr_test phdr address = true.
Proof. rewrite contains_spec, phdr_test_spec. lia. Qed.

(** The loop stops at the first header that passes the test. *)
Lemma find_phdr_app pre s post address :
  Forall (λ p, phdr_test p address = false) pre →
  phdr_test s address = true →
  find_phdr (pre ++ s :: post) address = Some s.
Proof.
  induction 1 as [|p pre Hp _ IH]; intros Hs; simpl.
  - by rewrite Hs.
  - rewrite Hp. by apply IH.
Qed.

Lemma find_phdr_Some phdrs address phdr :
  find_phdr phdrs address = Some phdr →
  ∃ pre post, phdrs = pre ++ phdr :: post
    ∧ Forall (λ p, phdr_test p address = false) pre
    ∧ phdr_test phdr address = true.
Proof.
  induction phdrs as [|p phdrs IH]; simpl; [done|].
  destruct (phdr_test p address) eqn:Hp.
  - intros [= <-]. by exists [], phdrs.
  - intros (pre & post & -> & Hpre & Hs)%IH.
    exists (p :: pre), post. split_and!; [done| by constructor |done].
Qed.

Lemma find_phdr_None phdrs address :
  find_phdr phdrs address = None ↔
  Forall (λ p, phdr_test p address = false) phdrs.
Proof.
  induction phdrs as [|p phdrs IH]; simpl.
  - split; [constructor|done].
  - destruct (phdr_test p address) eqn:Hp.
    + split; [done|]. intros H%Forall_cons_1. destruct H; congruence.
    + rewrite IH. split; [by constructor|by intros [_ ?]%Forall_cons_1].
Qed.

(** A positioned read of at most [MAX_RW_COUNT] bytes within the range of
    offsets succeeds and returns the bytes of the file from the offset
    on. *)
Lemma os_pread_ok size offset c :
  0 ≤ size ≤ MAX_RW_COUNT → 0 ≤ offset → offset + size ≤ OFF_T_MAX →
  os_pread size offset c =
    (inr (take (Z.to_nat size) (drop (Z.to_nat offset) (core_bytes c))),
     mkCore (core_bytes c) (core_preads c ++ [(size, offset)])).
Proof.
  intros Hs Ho Hend. unfold os_pread, MAX_RW_COUNT, OFF_T_MAX, PY_SSIZE_T_MAX in *.
  destruct (Z.ltb_spec size (- 2 ^ 63)); [lia|].
  destruct (Z.ltb_spec (2 ^ 63 - 1) size); [lia|].
  destruct (Z.ltb_spec offset (- 2 ^ 63)); [lia|].
  destruct (Z.ltb_spec (2 ^ 63 - 1) offset); [lia|]. simpl.
  destruct (Z.ltb_spec size 0); [lia|].
  destruct (Z.ltb_spec offset 0); [lia|].
  destruct (Z.ltb_spec (2 ^ 63 - 1) (offset + size)); [lia|]. simpl.
  by rewrite Z.min_l by lia.
Qed.

Lemma pread_bytes_lookup (bytes : list Byte.byte) size offset (i : nat) :
  0 ≤ offset → (i < Z.to_nat size)%nat →
  take (Z.to_nat size) (drop (Z.to_nat offset) bytes) !! i
    = bytes !! Z.to_nat (offset + Z.of_nat i).
Proof.
  intros Ho Hi. rewrite lookup_take_lt by done. rewrite lookup_drop.
  f_equal. lia.
Qed.

Lemma pread_bytes_length (bytes : list Byte.byte) size offset :
  0 ≤ size → 0 ≤ offset → offset + size ≤ Z.of_nat (length bytes) →
  length (take (Z.to_nat size) (drop (Z.to_nat offset) bytes)) = Z.to_nat size.
Proof. intros. rewrite length_take, length_drop. lia. Qed.

Lemma pread_bytes_length_min (bytes : list Byte.byte) size offset :
  length (take (Z.to_nat size) (drop (Z.to_nat offset) bytes))
    = Nat.min (Z.to_nat size) (length bytes - Z.to_nat offset).
Proof. by rewrite length_take, length_drop. Qed.

(** What the call does on each branch of the loop. *)
Lemma read_memory_unmapped phdrs address size c :
  find_phdr phdrs address = None →
  read_memory phdrs address size c =
    (inl (ValueError ("could not find memory segment containing 0x"
                        +:+ format_x address)), c).
Proof. intros H. unfold read_memory. by rewrite H. Qed.

Lemma read_memory_mapped phdrs address size c phdr :
  find_phdr phdrs address = Some phdr →
  read_memory phdrs address size c =
    os_pread size (p_offset phdr + address - p_vaddr phdr) c.
Proof. intros H. unfold read_memory. by rewrite H. Qed.

(** An address that a segment contains never takes the [else] branch. *)
Lemma find_phdr_contained phdrs address s :
  s ∈ phdrs → contains s address = true →
  is_Some (find_phdr phdrs address).
Proof.
  intros Hin Hc. destruct (find_phdr phdrs address) eqn:E; [by eexists|].
  apply find_phdr_None in E. rewrite Forall_forall in E.
  apply E in Hin. apply contains_phdr_test in Hc. congruence.
Qed.

(** Away from the exact end of every segment the loop is the documented
    translation. *)
Lemma find_phdr_translate_doc phdrs address :
  Forall (λ p, address ≠ p_vaddr p + p_memsz p) phdrs →
  find_phdr phdrs address = translate_doc phdrs address.
Proof.
  induction 1 as [|p phdrs Hp _ IH]; simpl; [done|].
  rewrite IH. replace (contains p address) with (phdr_test p address); [done|].
  unfold phdr_test, contains. f_equal.
  destruct (Z.leb_spec address (p_vaddr p + p_memsz p)),
           (Z.ltb_spec address (p_vaddr p + p_memsz p)); lia || done.
Qed.

(** The error of the [else] branch is raised only for an address that no
    segment contains. *)
Lemma read_memory_unmapped_only phdrs address size c msg c' :
  read_memory phdrs address size c =
    (inl (ValueError ("could not find memory segment containing 0x" +:+ msg)), c') →
  translate_doc phdrs address = None ∧ c' = c.
Proof.
  unfold read_memory. destruct (find_phdr phdrs address) as [phdr|] eqn:E.
  - unfold os_pread. repeat case_match; intros [=].
  - intros [= _ <-]. split; [|done].
    apply find_phdr_None in E. clear -E.
    induction E as [|p phdrs Hp _ IH]; simpl; [done|].
    destruct (contains p address) eqn:Hc; [|done].
    apply contains_phdr_test in Hc. congruence.
Qed.

(** The two reads of the one-segment image [[0x1000, 0x2000)] at file
    offset 0: the first 16 bytes of the file, and the error. *)
Lemma read_memory_first_16 c :
  read_memory [segment 0x1000 0x1000 0] 0x1000 16 c =
    (inr (take 16 (core_bytes c)),
     mkCore (core_bytes c) (core_preads c ++ [(16, 0)])).
Proof. done. Qed.

Lemma read_memory_0x3000 c :
  read_memory [segment 0x1000 0x1000 0] 0x3000 1 c =
    (inl (ValueError "could not find memory segment containing 0x3000"), c).
Proof. done. Qed.

End read_memory_facts.

(** ** The claims about [read_memory] *)

(** C1. The scan of [read_memory] does follow table order and stops at the
    first segment that passes its test, but the test is
    [p_vaddr <= address <= p_vaddr + p_memsz]: in the one-segment table
    [[0x1000, 0x2000)] the address 0x2000, which equals start + length and
    which the half-open range does not contain, is matched to the segment,
    where the documented translation finds nothing. *)
Theorem find_phdr_matches_end_address :
  contains (segment 0x1000 0x1000 0) 0x2000 = false
  ∧ translate_doc [segment 0x1000 0x1000 0] 0x2000 = None
  ∧ find_phdr [segment 0x1000 0x1000 0] 0x2000 = Some (segment 0x1000 0x1000 0).
Proof. done. Qed.

(** C3. With the one segment [[0x1000, 0x2000)] no segment contains the
    address 0x2000, yet [read_memory] raises nothing there: it issues a
    positioned read of the byte at file offset 0x1000 and returns it. So
    the error is not raised for every address outside all segments. *)
Theorem read_memory_end_address_not_refused (c : core) :
  translate_doc [segment 0x1000 0x1000 0] 0x2000 = None
  ∧ read_memory [segment 0x1000 0x1000 0] 0x2000 1 c =
      (inr (take 1 (drop 4096 (core_bytes c))),
       mkCore (core_bytes c) (core_preads c ++ [(1, 0x1000)])).
Proof. done. Qed.

(** C4. With the adjacent segments [[0x1000, 0x2000)] at file offset 0 and
    [[0x2000, 0x3000)] at file offset 0x5000, the address 0x2000 is
    contained in the second segment only, so the bytes at it start at file
    position 0x5000; [read_memory] stops at the first segment and reads
    from file position 0x1000. On an image that stores its page number in
    every byte the 16 bytes returned are those of page 1, not of page 5. *)
Theorem read_memory_adjacent_segments_wrong_offset :
  let phdrs := [segment 0x1000 0x1000 0; segment 0x2000 0x1000 0x5000] in
  translate_doc phdrs 0x2000 = Some (segment 0x2000 0x1000 0x5000)
  ∧ (∀ c, read_memory phdrs 0x2000 16 c = os_pread 16 0x1000 c)
  ∧ (read_memory phdrs 0x2000 16 (opened (paged_image 6))).1
      = inr (replicate 16 Byte.x01)
  ∧ (os_pread 16 (0x5000 + (0x2000 - 0x2000)) (opened (paged_image 6))).1
      = inr (replicate 16 Byte.x05).
Proof. split_and!; [done|done|by vm_compute|by vm_compute]. Qed.

(** C5, the claim as it stands fails. The one-segment image
    [[0x1000, 0x2000)] at file offset 0 on a file of 4096 bytes: the
    request for 16 bytes at 0x1ff8 starts inside the segment and runs past
    its end, and the call returns the 8 bytes that are left of the file,
    not 16; and the request for 2^63 bytes at 0x1000 is refused by
    [os.pread], whose size argument it does not fit. *)
Lemma read_memory_past_end_counterexample :
  contains (segment 0x1000 0x1000 0) 0x1ff8 = true
  ∧ p_vaddr (segment 0x1000 0x1000 0) + p_memsz (segment 0x1000 0x1000 0)
      < 0x1ff8 + 16
  ∧ (read_memory [segment 0x1000 0x1000 0] 0x1ff8 16 (opened (paged_image 1))).1
      = inr (replicate 8 Byte.x00)
  ∧ ¬ (∃ data,
         (read_memory [segment 0x1000 0x1000 0] 0x1ff8 16
            (opened (paged_image 1))).1 = inr data
         ∧ length data = 16%nat)
  ∧ contains (segment 0x1000 0x1000 0) 0x1000 = true
  ∧ p_vaddr (segment 0x1000 0x1000 0) + p_memsz (segment 0x1000 0x1000 0)
      < 0x1000 + 2 ^ 63
  ∧ (read_memory [segment 0x1000 0x1000 0] 0x1000 (2 ^ 63)
       (opened (paged_image 1))).1 = inl OverflowError.
Proof.
  assert ((read_memory [segment 0x1000 0x1000 0] 0x1ff8 16
             (opened (paged_image 1))).1 = inr (replicate 8 Byte.x00)) as Hread
    by (by vm_compute).
  split_and!; [done|done|exact Hread| |done|done|by vm_compute].
  intros (data & Hdata & Hlen). rewrite Hread in Hdata.
  injection Hdata as <-. discriminate Hlen.
Qed.

(** C5, amended. When the loop stops at a segment that contains the start
    address and the requested range runs past the end of that segment,
    nothing checks the end of the range: for a size of at most
    [MAX_RW_COUNT] bytes and a range of file positions within the offset
    type, the call does not fail; it issues one positioned read of [size]
    bytes at [p_offset + address - p_vaddr] and returns the bytes of the
    file from there on, also those beyond the segment, as many as the size
    asks or as the file has left, hence [size] of them when the file is
    that long; and the outcome is the one the same table gives with the
    memory size of that segment made larger by any amount. *)
Theorem read_memory_no_end_check
    (pre post : list Phdr) (s : Phdr) (address size : Z) (c : core) :
  Forall (λ p, phdr_test p address = false) pre →
  contains s address = true →
  p_vaddr s + p_memsz s < address + size →
  0 ≤ p_offset s →
  size ≤ MAX_RW_COUNT →
  p_offset s + address - p_vaddr s + size ≤ OFF_T_MAX →
  let offset := p_offset s + address - p_vaddr s in
  let data := take (Z.to_nat size) (drop (Z.to_nat offset) (core_bytes c)) in
  read_memory (pre ++ s :: post) address size c =
    (inr data, mkCore (core_bytes c) (core_preads c ++ [(size, offset)]))
  ∧ (∀ i : nat, (i < Z.to_nat size)%nat →
       data !! i = core_bytes c !! Z.to_nat (offset + Z.of_nat i))
  ∧ length data
      = Nat.min (Z.to_nat size) (length (core_bytes c) - Z.to_nat offset)
  ∧ (offset + size ≤ Z.of_nat (length (core_bytes c)) →
       length data = Z.to_nat size)
  ∧ (∀ memsz, p_memsz s ≤ memsz →
       read_memory (pre ++ with_memsz s memsz :: post) address size c =
       read_memory (pre ++ s :: post) address size c).
Proof.
  intros Hpre Hc Hpast Hoff Hmax Hend offset data.
  pose proof Hc as Hin. apply contains_spec in Hin.
  assert (0 ≤ offset) by (unfold offset; lia).
  assert (0 ≤ size) by lia.
  assert (Hfind : find_phdr (pre ++ s :: post) address = Some s)
    by (apply find_phdr_app; [done|by apply contains_phdr_test]).
  split_and!.
  - rewrite (read_memory_mapped _ _ _ _ _ Hfind). by apply os_pread_ok.
  - intros i Hi. by apply pread_bytes_lookup.
  - apply pread_bytes_length_min.
  - intros Hlen. by apply pread_bytes_length.
  - intros memsz Hm.
    rewrite (read_memory_mapped _ _ _ _ _ Hfind).
    rewrite (read_memory_mapped _ _ _ _ (with_memsz s memsz)); [done|].
    apply find_phdr_app; [done|]. apply phdr_test_spec. simpl. lia.
Qed.

Lemma read_memory_no_end_check_witness :
  read_memory ([] ++ [segment 0x1000 0x1000 0]) 0x1ff8 16 (opened (paged_image 2)) =
    (inr (take (Z.to_nat 16) (drop (Z.to_nat (0 + 0x1ff8 - 0x1000)) (paged_image 2))),
     mkCore (paged_image 2) ([] ++ [(16, 0 + 0x1ff8 - 0x1000)])).
Proof.
  refine (proj1 (read_memory_no_end_check [] [] (segment 0x1000 0x1000 0)
                   0x1ff8 16 (opened (paged_image 2)) _ _ _ _ _ _)).
  - constructor.
  - reflexivity.
  - simpl; lia.
  - simpl; lia.
  - unfold MAX_RW_COUNT; lia.
  - unfold OFF_T_MAX; simpl; lia.
Defined.

(** C9. The test of the loop accepts the address [p_vaddr + p_memsz]: for
    a segment [s] of non-negative length that no earlier header of the
    table matches at that address, the address one past the half-open end
    of [s], which [s] does not contain, is mapped to [s], and the call is
    the positioned read at file position [p_offset + p_memsz]; for a size
    that one read transfers it returns the bytes found there, and not the
    error of the unmapped address. *)
Theorem read_memory_inclusive_upper_bound
    (pre post : list Phdr) (s : Phdr) (size : Z) (c : core) :
  0 ≤ p_memsz s →
  Forall (λ p, phdr_test p (p_vaddr s + p_memsz s) = false) pre →
  let address := p_vaddr s + p_memsz s in
  contains s address = false
  ∧ find_phdr (pre ++ s :: post) address = Some s
  ∧ read_memory (pre ++ s :: post) address size c =
      os_pread size (p_offset s + p_memsz s) c
  ∧ (0 ≤ size ≤ MAX_RW_COUNT → 0 ≤ p_offset s →
     p_offset s + p_memsz s + size ≤ OFF_T_MAX →
       read_memory (pre ++ s :: post) address size c =
         (inr (take (Z.to_nat size)
                 (drop (Z.to_nat (p_offset s + p_memsz s)) (core_bytes c))),
          mkCore (core_bytes c)
            (core_preads c ++ [(size, p_offset s + p_memsz s)]))).
Proof.
  intros Hlen Hpre address.
  assert (Hfind : find_phdr (pre ++ s :: post) address = Some s).
  { apply find_phdr_app; [done|]. apply phdr_test_spec. unfold address. lia. }
  assert (Hread : read_memory (pre ++ s :: post) address size c =
                  os_pread size (p_offset s + p_memsz s) c).
  { rewrite (read_memory_mapped _ _ _ _ _ Hfind). f_equal. unfold address. lia. }
  split_and!; [|done|done|].
  - destruct (contains s address) eqn:Hc; [|done].
    apply contains_spec in Hc. unfold address in Hc. lia.
  - intros Hs Ho Hend. rewrite Hread. apply os_pread_ok; lia.
Qed.

Lemma read_memory_inclusive_upper_bound_witness :
  contains (segment 0x1000 0x1000 0) (0x1000 + 0x1000) = false
  ∧ find_phdr ([] ++ [segment 0x1000 0x1000 0]) (0x1000 + 0x1000)
      = Some (segment 0x1000 0x1000 0)
  ∧ read_memory ([] ++ [segment 0x1000 0x1000 0]) (0x1000 + 0x1000) 4
      (opened (paged_image 2)) = os_pread 4 (0 + 0x1000) (opened (paged_image 2)).
Proof.
  pose proof (read_memory_inclusive_upper_bound [] [] (segment 0x1000 0x1000 0)
                4 (opened (paged_image 2))) as H.
  destruct H as (H1 & H2 & H3 & _); [simpl; lia|constructor|].
  exact (conj H1 (conj H2 H3)).
Defined.

(** ** The symbol table: the last address wins *)

Section symbol_table_facts.

Implicit Types (symbols acc : gmap string (list Z)) (lines : list string)
               (entry : symbol_entry) (name : string).

Lemma symbol_address_add_symbol acc entry :
  symbol_address (add_symbol acc entry) (entry_name entry)
    = inr (entry_address entry).
Proof.
  unfold symbol_address, add_symbol, dict_getitem, list_last.
  rewrite lookup_insert_eq. simpl. by rewrite last_snoc.
Qed.

Lemma symbol_address_add_symbol_ne acc entry name :
  entry_name entry ≠ name →
  symbol_address (add_symbol acc entry) name = symbol_address acc name.
Proof.
  intros Hne. unfold symbol_address, add_symbol, dict_getitem.
  by rewrite lookup_insert_ne.
Qed.

Lemma recorded_cons line lines entry name :
  parse_symbol_line line = inr entry →
  recorded (line :: lines) name =
    if decide (entry_name entry = name)
    then entry_address entry :: recorded lines name
    else recorded lines name.
Proof.
  intros Hline. unfold recorded, listed. simpl. rewrite Hline.
  rewrite filter_cons. by case_decide.
Qed.

(** The table after a run of lines: a name the run records resolves to the
    last address the run records for it, any other name as before. *)
Lemma parse_symbol_lines_address lines acc symbols name :
  parse_symbol_lines lines acc = inr symbols →
  symbol_address symbols name =
    match last (recorded lines name) with
    | Some address => inr address
    | None => symbol_address acc name
    end.
Proof.
  revert acc. induction lines as [|line lines IH]; intros acc; simpl.
  - by intros [= ->].
  - destruct (parse_symbol_line line) as [e|entry] eqn:Hline; [done|]. simpl.
    intros Hrest. rewrite (IH _ Hrest), (recorded_cons _ _ _ _ Hline).
    case_decide as Hname.
    + rewrite last_cons. destruct (last (recorded lines name)); [done|].
      subst name. apply symbol_address_add_symbol.
    + destruct (last (recorded lines name)); [done|].
      by apply symbol_address_add_symbol_ne.
Qed.

Lemma recorded_nonempty lines name :
  name ∈ entry_name <$> listed lines → recorded lines name ≠ [].
Proof.
  intros (entry & -> & Hin)%list_elem_of_fmap. unfold recorded.
  intros Hnil%fmap_nil_inv.
  assert (entry ∈ filter (λ e, entry_name e = entry_name entry) (listed lines))
    as Hf by (by apply list_elem_of_filter).
  rewrite Hnil in Hf. by apply not_elem_of_nil in Hf.
Qed.

End symbol_table_facts.

(** C2. When the listing parses into a table, every name that appears in
    the listing resolves, through [symbols[name][-1]], to the last address
    the listing records for that name; and the table of the three lines
    [1000 D foo], [2000 D foo], [3000 D foo] resolves [foo] to the address
    written 3000 (hexadecimal). *)
Theorem symbol_address_last_recorded :
  (∀ (lines : list string) (symbols : gmap string (list Z)) (name : string),
     parse_symbol_file lines = inr symbols →
     name ∈ entry_name <$> listed lines →
     ∃ address, last (recorded lines name) = Some address
                ∧ symbol_address symbols name = inr address)
  ∧ (symbols ←! parse_symbol_file ["1000 D foo"; "2000 D foo"; "3000 D foo"];
     symbol_address symbols "foo") = inr 0x3000.
Proof.
  split.
  - intros lines symbols name Hparse Hname.
    apply recorded_nonempty in Hname.
    destruct (last (recorded lines name)) as [address|] eqn:Hlast.
    + exists address. split; [done|].
      rewrite (parse_symbol_lines_address _ _ _ name Hparse). by rewrite Hlast.
    + by apply last_None in Hlast.
  - by vm_compute.
Qed.

Lemma symbol_address_last_recorded_witness :
  ∃ address,
    last (recorded ["1000 D foo"; "2000 D foo"; "3000 D foo"] "foo") = Some address
    ∧ symbol_address {[ "foo" := [0x1000; 0x2000; 0x3000] ]} "foo" = inr address.
Proof.
  apply (proj1 symbol_address_last_recorded
           ["1000 D foo"; "2000 D foo"; "3000 D foo"]).
  - reflexivity.
  - simpl. apply list_elem_of_here.
Defined.

(** ** [lookup_variable]: both components or an exception *)

(** The two ways [symbols[name][-1]] can raise. *)
Lemma symbol_address_error (symbols : gmap string (list Z)) name e :
  symbol_address symbols name = inl e →
  (e = KeyError name ∧ symbols !! name = None)
  ∨ (e = IndexError ∧ symbols !! name = Some []).
Proof.
  unfold symbol_address, dict_getitem, list_last.
  destruct (symbols !! name) as [l|]; simpl.
  - destruct (last l) eqn:Hl; [done|]. apply last_None in Hl as ->.
    intros [= <-]. by right.
  - intros [= <-]. by left.
Qed.

(** C6. [lookup_variable] either returns the pair of the address, taken
    from the symbol table, and the type, resolved from the record the
    debug index finds, or raises the exception of the first step that
    fails, in the order symbol table, [find], [type], [find_dwarf_type],
    and returns nothing; a step after a failing one is not run. *)
Theorem lookup_variable_all_or_nothing {index Die Ty : Type}
    (dwarf_index_find : string → Z → index → result Die * index)
    (die_type : Die → index → result Die * index)
    (find_dwarf_type : Die → index → result Ty * index)
    (symbols : gmap string (list Z)) (name : string) (i : index) :
  match lookup_variable dwarf_index_find die_type find_dwarf_type symbols name i with
  | (inr (address, ty), i') =>
      symbol_address symbols name = inr address
      ∧ ∃ die i1 dwarf_type i2,
          dwarf_index_find name DW_TAG_variable i = (inr die, i1)
          ∧ die_type die i1 = (inr dwarf_type, i2)
          ∧ find_dwarf_type dwarf_type i2 = (inr ty, i')
  | (inl e, i') =>
      (symbol_address symbols name = inl e ∧ i' = i)
      ∨ (is_ok (symbol_address symbols name) = true
         ∧ (dwarf_index_find name DW_TAG_variable i = (inl e, i')
            ∨ ∃ die i1,
                dwarf_index_find name DW_TAG_variable i = (inr die, i1)
                ∧ (die_type die i1 = (inl e, i')
                   ∨ ∃ dwarf_type i2,
                       die_type die i1 = (inr dwarf_type, i2)
                       ∧ find_dwarf_type dwarf_type i2 = (inl e, i'))))
  end.
Proof.
  unfold lookup_variable.
  destruct (symbol_address symbols name) as [e|address]; [by left|].
  destruct (dwarf_index_find name DW_TAG_variable i) as [[e|die] i1] eqn:Hfind.
  { right. split; [done|]. by left. }
  destruct (die_type die i1) as [[e|dwarf_type] i2] eqn:Htype.
  { right. split; [done|]. right. exists die, i1. split; [done|]. by left. }
  destruct (find_dwarf_type dwarf_type i2) as [[e|ty] i3] eqn:Hres.
  { right. split; [done|]. right. exists die, i1. split; [done|]. right.
    by exists dwarf_type, i2. }
  split; [done|]. by exists die, i1, dwarf_type, i2.
Qed.

(** ** The path list handed to [DwarfIndex] *)

Section find_facts.

Context {Die : Type} (defines : string → string → Z → option Die).

(** [find] returns the record of the first binary with a match. *)
Lemma find_first pre path post name kind die :
  Forall (λ p, defines p name kind = None) pre →
  defines path name kind = Some die →
  DwarfIndex.find defines (pre ++ path :: post) name kind = inr die.
Proof.
  induction 1 as [|p pre Hp _ IH]; intros Hdie; simpl.
  - by rewrite Hdie.
  - rewrite Hp. by apply IH.
Qed.

(** A list with a matching binary splits at its first matching binary. *)
Lemma first_defining paths name kind :
  (∃ m, m ∈ paths ∧ is_Some (defines m name kind)) →
  ∃ pre m post die, paths = pre ++ m :: post
    ∧ Forall (λ p, defines p name kind = None) pre
    ∧ defines m name kind = Some die.
Proof.
  induction paths as [|p paths IH]; intros (m & Hin & Hdef).
  - by apply not_elem_of_nil in Hin.
  - destruct (defines p name kind) as [die|] eqn:Hp.
    + by exists [], p, paths, die.
    + apply elem_of_cons in Hin as [->|Hin].
      { rewrite Hp in Hdef. by destruct Hdef. }
      destruct IH as (pre & m' & post & die & -> & Hpre & Hm'); [by exists m|].
      exists (p :: pre), m', post, die. split_and!; [done|by constructor|done].
Qed.

End find_facts.

(** C10. Whenever [main] gets as far as constructing the debug index, the
    list it hands over is the list of the module paths it found followed
    by the path of the executable, which is its last element; so a scan
    that takes the first binary with a match returns, for a (name, kind)
    pair that some module defines, the record of the first such module,
    whether or not the executable defines the pair too. *)
Theorem main_paths_modules_then_executable
    (os_path_exists : string → bool) (glob_glob : string → list string)
    (platform_release : string) (args : Namespace)
    (err paths : list string) :
  main_paths os_path_exists glob_glob platform_release args = (err, inr paths) →
  ∃ exe,
    paths = find_modules glob_glob platform_release ++ [exe]
    ∧ last paths = Some exe
    ∧ (executable args = Some exe
       ∨ (executable args = None
          ∧ find_vmlinux os_path_exists platform_release = inr exe))
    ∧ ∀ (Die : Type) (defines : string → string → Z → option Die) name kind,
        (∃ m, m ∈ find_modules glob_glob platform_release
              ∧ is_Some (defines m name kind)) →
        ∃ pre m post die,
          find_modules glob_glob platform_release = pre ++ m :: post
          ∧ Forall (λ p, defines p name kind = None) pre
          ∧ defines m name kind = Some die
          ∧ DwarfIndex.find defines paths name kind = inr die.
Proof.
  unfold main_paths. destruct (kernel args); simpl; [|done].
  set (modules := find_modules glob_glob platform_release).
  intros Hmain.
  assert (∃ exe, paths = modules ++ [exe]
                 ∧ (executable args = Some exe
                    ∨ (executable args = None
                       ∧ find_vmlinux os_path_exists platform_release = inr exe)))
    as (exe & -> & Hexe).
  { destruct (executable args) as [exe|]; simpl in Hmain.
    - injection Hmain as _ <-. exists exe. split; [done|by left].
    - destruct (find_vmlinux os_path_exists platform_release) as [e|exe];
        simpl in Hmain; [done|].
      injection Hmain as _ <-. exists exe. split; [done|by right]. }
  exists exe. split_and!; [done|by rewrite last_snoc|done|].
  intros Die defines name kind Hm.
  destruct (first_defining defines modules name kind Hm)
    as (pre & m & post & die & Hsplit & Hpre & Hdie).
  exists pre, m, post, die. split_and!; [done..|].
  rewrite Hsplit, <- app_assoc. simpl. by apply find_first.
Qed.

(** ** The type resolver: termination and sharing *)

Section resolver_facts.

Import TypeResolver.

Local Open Scope nat_scope.

Implicit Types (records : gmap ident DebugRecord) (arena : gmap ident slot)
               (id key : ident) (keys : list ident) (depth : nat).

Lemma resolve_S depth records id arena :
  resolve (S depth) records id arena =
    match arena !! id with
    | Some _ => Some (inr id, arena)
    | None =>
        match records !! id with
        | None => Some (inl (MissingAttribute "type"), arena)
        | Some record =>
            match describe record with
            | inl e => Some (inl e, arena)
            | inr descriptor =>
                match resolve_each (resolve depth records)
                        (keys_of descriptor) (<[id := InProgress]> arena) with
                | None => None
                | Some (inl e, _) => Some (inl e, arena)
                | Some (inr _, arena2) =>
                    Some (inr id, <[id := Ready descriptor]> arena2)
                end
            end
        end
    end.
Proof. done. Qed.

(** A reference to an identity that has a slot, filled or in progress,
    returns that slot and leaves the arena alone. *)
Lemma resolve_hit depth records id arena :
  is_Some (arena !! id) →
  resolve (S depth) records id arena = Some (inr id, arena).
Proof. intros [s Hs]. rewrite resolve_S. by rewrite Hs. Qed.

(** *** The arena only grows *)

Lemma resolve_each_dom (step : ident → gmap ident slot → outcome ident)
    keys arena r arena' :
  (∀ key a r' a', step key a = Some (r', a') → dom a ⊆ dom a') →
  resolve_each step keys arena = Some (r, arena') →
  dom arena ⊆ dom arena'.
Proof.
  intros Hstep. revert arena. induction keys as [|key keys IH]; intros arena; simpl.
  - by intros [= _ <-].
  - destruct (step key arena) as [[[e|k] a]|] eqn:Hk; [| |done].
    + intros [= _ <-]. by eapply Hstep.
    + intros Hrest%IH. apply Hstep in Hk. set_solver.
Qed.

Lemma resolve_dom depth records id arena r arena' :
  resolve depth records id arena = Some (r, arena') →
  dom arena ⊆ dom arena'.
Proof.
  revert id arena r arena'.
  induction depth as [|depth IH]; intros id arena r arena'; [done|].
  rewrite resolve_S.
  destruct (arena !! id) as [s|]; [by intros [= _ <-]|].
  destruct (records !! id) as [record|]; [|by intros [= _ <-]].
  destruct (describe record) as [e|descriptor]; [by intros [= _ <-]|].
  destruct (resolve_each _ _ _) as [[[e|[]] arena2]|] eqn:Heach; [| |done].
  - intros [= _ <-]. apply resolve_each_dom in Heach; [|exact IH].
    rewrite dom_insert_L in Heach. set_solver.
  - intros [= _ <-]. apply resolve_each_dom in Heach; [|exact IH].
    rewrite dom_insert_L in *. set_solver.
Qed.

(** *** Enough depth gives a result *)

(** The records that have no slot yet. *)
Lemma missing_insert records arena id s :
  is_Some (records !! id) → arena !! id = None →
  size (dom records ∖ dom (<[id := s]> arena))
    < size (dom records ∖ dom arena).
Proof.
  intros Hrec Hnone. apply subset_size.
  apply elem_of_dom in Hrec. apply not_elem_of_dom in Hnone.
  rewrite dom_insert_L. split.
  - apply difference_mono_l, union_subseteq_r.
  - intros Hsub. specialize (Hsub id). rewrite !elem_of_difference in Hsub.
    destruct Hsub as [_ Hnot]; [done|].
    apply Hnot, elem_of_union_l, elem_of_singleton. done.
Qed.

Lemma missing_mono records arena arena' :
  dom arena ⊆ dom arena' →
  size (dom records ∖ dom arena') ≤ size (dom records ∖ dom arena).
Proof. intros Hsub. by apply subseteq_size, difference_mono_l. Qed.

Lemma resolve_each_total (step : ident → gmap ident slot → outcome ident)
    records (bound : nat) keys arena :
  (∀ key a, size (dom records ∖ dom a) < bound → is_Some (step key a)) →
  (∀ key a r' a', step key a = Some (r', a') → dom a ⊆ dom a') →
  size (dom records ∖ dom arena) < bound →
  is_Some (resolve_each step keys arena).
Proof.
  intros Htotal Hdom. revert arena.
  induction keys as [|key keys IH]; intros arena Hsize; simpl; [by eexists|].
  destruct (Htotal key arena Hsize) as [[[e|k] a] Hk]; rewrite Hk; [by eexists|].
  apply IH. apply Hdom in Hk. pose proof (missing_mono records _ _ Hk). lia.
Qed.

Lemma resolve_total depth records id arena :
  size (dom records ∖ dom arena) < depth →
  is_Some (resolve depth records id arena).
Proof.
  revert id arena. induction depth as [|depth IH]; intros id arena Hsize; [lia|].
  rewrite resolve_S.
  destruct (arena !! id) as [s|] eqn:Hslot; [by eexists|].
  destruct (records !! id) as [record|] eqn:Hrec; [|by eexists].
  destruct (describe record) as [e|descriptor]; [by eexists|].
  destruct (resolve_each_total (resolve depth records) records depth
              (keys_of descriptor) (<[id := InProgress]> arena)) as [[[e|[]] a] Ha].
  - exact IH.
  - intros key a r' a'. apply resolve_dom.
  - pose proof (missing_insert records arena id InProgress) as Hlt.
    specialize (Hlt ltac:(by eexists) Hslot). lia.
  - rewrite Ha. by eexists.
  - rewrite Ha. by eexists.
Qed.

(** *** More depth changes nothing *)

Lemma resolve_each_more (step step' : ident → gmap ident slot → outcome ident)
    keys arena x :
  (∀ key a y, step key a = Some y → step' key a = Some y) →
  resolve_each step keys arena = Some x →
  resolve_each step' keys arena = Some x.
Proof.
  intros Hstep. revert arena. induction keys as [|key keys IH]; intros arena; simpl;
    [done|].
  destruct (step key arena) as [[[e|k] a]|] eqn:Hk; [| |done];
    rewrite (Hstep _ _ _ Hk); [done|]. apply IH.
Qed.

Lemma resolve_more depth depth' records id arena x :
  resolve depth records id arena = Some x → (depth ≤ depth')%nat →
  resolve depth' records id arena = Some x.
Proof.
  revert depth' id arena x.
  induction depth as [|depth IH]; intros depth' id arena x; [done|].
  intros Hres Hle. destruct depth' as [|depth']; [lia|].
  rewrite resolve_S in *.
  destruct (arena !! id) as [s|]; [done|].
  destruct (records !! id) as [record|]; [|done].
  destruct (describe record) as [e|descriptor]; [done|].
  destruct (resolve_each (resolve depth records) _ _) as [y|] eqn:Heach; [|done].
  rewrite (resolve_each_more _ (resolve depth' records) _ _ _
             ltac:(intros; eapply IH; [done|lia]) Heach).
  done.
Qed.

(** *** Without the placeholder the list node is never resolved *)

Lemma resolve_late_S depth records id arena :
  resolve_late (S depth) records id arena =
    match arena !! id with
    | Some _ => Some (inr id, arena)
    | None =>
        match records !! id with
        | None => Some (inl (MissingAttribute "type"), arena)
        | Some record =>
            match describe record with
            | inl e => Some (inl e, arena)
            | inr descriptor =>
                match resolve_each (resolve_late depth records)
                        (keys_of descriptor) arena with
                | None => None
                | Some (inl e, _) => Some (inl e, arena)
                | Some (inr _, arena2) =>
                    Some (inr id, <[id := Ready descriptor]> arena2)
                end
            end
        end
    end.
Proof. done. Qed.

Lemma describe_node_record :
  describe node_record =
    inr (Struct (Some "node") 16
           [ mkMember (Some "value") 0%Z (to_key int_id);
             mkMember (Some "next") 8%Z (to_key node_ptr_id) ]).
Proof. reflexivity. Qed.

Lemma describe_node_ptr_record :
  describe node_ptr_record = inr (Pointer (to_key node_id)).
Proof. reflexivity. Qed.

Lemma describe_int_record : describe int_record = inr (Base "int" 4%Z 5%Z).
Proof. reflexivity. Qed.

(** The [int] is resolved, or the depth is used up; the node and the
    pointer still have no slot. *)
Lemma resolve_late_int depth arena :
  arena !! node_id = None → arena !! node_ptr_id = None →
  resolve_late depth node_records int_id arena = None
  ∨ ∃ arena', resolve_late depth node_records int_id arena = Some (inr int_id, arena')
              ∧ arena' !! node_id = None ∧ arena' !! node_ptr_id = None.
Proof.
  intros Hnode Hptr. destruct depth as [|depth]; [by left|]. right.
  rewrite resolve_late_S. destruct (arena !! int_id); [by eexists|].
  replace (node_records !! int_id) with (Some int_record) by reflexivity.
  rewrite describe_int_record. simpl. eexists. split; [done|].
  by rewrite !lookup_insert_ne.
Qed.

Lemma resolve_late_node_diverges depth arena :
  arena !! node_id = None → arena !! node_ptr_id = None →
  resolve_late depth node_records node_id arena = None
  ∧ resolve_late depth node_records node_ptr_id arena = None.
Proof.
  revert arena. induction depth as [|depth IH]; intros arena Hnode Hptr; [done|].
  rewrite !resolve_late_S, Hnode, Hptr.
  replace (node_records !! node_id) with (Some node_record) by reflexivity.
  replace (node_records !! node_ptr_id) with (Some node_ptr_record) by reflexivity.
  rewrite describe_node_record, describe_node_ptr_record.
  split.
  - change (keys_of _) with [int_id; node_ptr_id]. simpl.
    destruct (resolve_late_int depth arena Hnode Hptr)
      as [->|(arena' & -> & Hnode' & Hptr')]; [done|].
    by rewrite (proj2 (IH arena' Hnode' Hptr')).
  - change (keys_of _) with [node_id]. simpl.
    by rewrite (proj1 (IH arena Hnode Hptr)).
Qed.

(** *** What a successful resolution leaves in the arena *)

Lemma extends_refl arena : extends arena arena.
Proof. by split. Qed.

Lemma extends_trans arena1 arena2 arena3 :
  extends arena1 arena2 → extends arena2 arena3 → extends arena1 arena3.
Proof. intros [H1 H1'] [H2 H2']. split; naive_solver. Qed.

Lemma settled_in_progress records arena id :
  settled records arena → arena !! id = None →
  settled records (<[id := InProgress]> arena).
Proof.
  intros Hset Hnone key descriptor Hkey.
  destruct (decide (id = key)) as [->|Hne].
  - by rewrite lookup_insert_eq in Hkey.
  - rewrite lookup_insert_ne in Hkey by done.
    destruct (Hset _ _ Hkey) as [Hrec Hkeys]. split; [done|].
    intros key' Hin. apply Hkeys in Hin. rewrite lookup_insert.
    by case_decide.
Qed.

Lemma resolve_each_ok (step : ident → gmap ident slot → outcome ident)
    records keys arena u arena' :
  (∀ key a k a', step key a = Some (inr k, a') → settled records a →
     settled records a' ∧ extends a a' ∧ is_Some (a' !! key)) →
  resolve_each step keys arena = Some (inr u, arena') →
  settled records arena →
  settled records arena' ∧ extends arena arena'
  ∧ ∀ key, key ∈ keys → is_Some (arena' !! key).
Proof.
  intros Hstep. revert arena.
  induction keys as [|key keys IH]; intros arena; simpl.
  - intros [= _ <-] Hset. split_and!; [done|apply extends_refl|].
    by intros key Hin%not_elem_of_nil.
  - destruct (step key arena) as [[[e|k] a]|] eqn:Hk; [done| |done].
    intros Hrest Hset.
    destruct (Hstep _ _ _ _ Hk Hset) as (Hset1 & Hext1 & [s Hs]).
    destruct (IH _ Hrest Hset1) as (Hset2 & Hext2 & Hkeys).
    split_and!; [done|by eapply extends_trans|].
    intros key' [->|Hin]%elem_of_cons; [|by apply Hkeys].
    exists s. by apply Hext2.
Qed.

Lemma resolve_ok depth records id arena k arena' :
  resolve depth records id arena = Some (inr k, arena') →
  settled records arena →
  k = id ∧ settled records arena' ∧ extends arena arena'
  ∧ is_Some (arena' !! id).
Proof.
  revert id arena k arena'.
  induction depth as [|depth IH]; intros id arena k arena'; [done|].
  rewrite resolve_S.
  destruct (arena !! id) as [s|] eqn:Hslot.
  { intros [= <- <-] Hset. split_and!; [done|done|apply extends_refl|].
    by rewrite Hslot. }
  destruct (records !! id) as [record|] eqn:Hrec; [|done].
  destruct (describe record) as [e|descriptor] eqn:Hdesc; [done|].
  destruct (resolve_each _ _ _) as [[[e|u] arena2]|] eqn:Heach; [done| |done].
  intros [= <- <-] Hset.
  apply (resolve_each_ok _ records) in Heach as (Hset2 & [Hkeep Hprog] & Hkeys).
  - split_and!; [done| | |by rewrite lookup_insert_eq].
    + intros key d Hkey. destruct (decide (id = key)) as [<-|Hne].
      * rewrite lookup_insert_eq in Hkey. injection Hkey as <-.
        split; [by exists record|].
        intros key' Hin. rewrite lookup_insert. case_decide; [done|].
        by apply Hkeys.
      * rewrite lookup_insert_ne in Hkey by done.
        destruct (Hset2 _ _ Hkey) as [Hr Hk]. split; [done|].
        intros key' Hin. rewrite lookup_insert. case_decide; [done|].
        by apply Hk.
    + split.
      * intros key s Hkey. destruct (decide (id = key)) as [<-|Hne]; [congruence|].
        rewrite lookup_insert_ne by done. apply Hkeep.
        by rewrite lookup_insert_ne.
      * intros key Hkey. destruct (decide (id = key)) as [<-|Hne].
        { by rewrite lookup_insert_eq in Hkey. }
        rewrite lookup_insert_ne in Hkey by done.
        apply Hprog in Hkey. by rewrite lookup_insert_ne in Hkey.
  - intros key a k' a' Hstep Ha.
    destruct (IH _ _ _ _ Hstep Ha) as (_ & ? & ? & ?). done.
  - by apply settled_in_progress.
Qed.

(** In a settled arena with nothing in progress, the filled slots repeat
    the references of the records. *)
Lemma chain_resolved records arena from path :
  settled records arena → quiescent arena →
  is_Some (arena !! from) →
  chain (λ a b, b ∈ references records a) from path →
  chain (points_to arena) from path.
Proof.
  intros Hset Hq. revert from.
  induction path as [|key path IH]; intros from [s Hs]; simpl; [done|].
  destruct s as [|descriptor]; [by apply Hq in Hs|].
  destruct (Hset _ _ Hs) as [(record & Hrec & Hdesc) Hkeys].
  unfold references. rewrite Hrec, Hdesc. intros [Hin Hrest].
  split; [by exists descriptor|]. apply IH; [by apply Hkeys|done].
Qed.

(** *** Failures *)

(** A resolution that fails leaves the arena as it found it. *)
Lemma resolve_failure depth records id arena e arena' :
  resolve depth records id arena = Some (inl e, arena') → arena' = arena.
Proof.
  destruct depth as [|depth]; [done|]. rewrite resolve_S.
  destruct (arena !! id); [done|].
  destruct (records !! id) as [record|]; [|by intros [= _ <-]].
  destruct (describe record) as [e'|descriptor]; [by intros [= _ <-]|].
  destruct (resolve_each _ _ _) as [[[e'|u] arena2]|]; [|done|done].
  by intros [= _ <-].
Qed.

Lemma resolve_each_no_failure (step : ident → gmap ident slot → outcome ident)
    (known : gset ident) keys arena e arena' :
  (∀ key a e' a', key ∈ known → step key a ≠ Some (inl e', a')) →
  (∀ key, key ∈ keys → key ∈ known) →
  resolve_each step keys arena ≠ Some (inl e, arena').
Proof.
  intros Hstep. revert arena.
  induction keys as [|key keys IH]; intros arena Hkeys; simpl; [done|].
  destruct (step key arena) as [[[e'|k] a]|] eqn:Hk; [|apply IH|done].
  - exfalso. eapply Hstep; [|exact Hk]. apply Hkeys, list_elem_of_here.
  - intros key' Hin. by apply Hkeys, list_elem_of_further.
Qed.

(** Where every record has a descriptor, no resolution fails. *)
Lemma resolve_no_failure depth records (known : gset ident) id arena e arena' :
  describable records known → id ∈ known →
  resolve depth records id arena ≠ Some (inl e, arena').
Proof.
  intros Hknown. revert id arena e arena'.
  induction depth as [|depth IH]; intros id arena e arena' Hid; [done|].
  rewrite resolve_S. destruct (arena !! id); [done|].
  destruct (Hknown _ Hid) as (record & descriptor & -> & -> & Hkeys).
  destruct (resolve_each _ _ _) as [[[e'|u] arena2]|] eqn:Heach; [|done|done].
  exfalso. revert Heach. apply (resolve_each_no_failure _ known); [|done].
  intros key a e'' a' Hkey. by apply IH.
Qed.

(** Hence, with enough depth, it returns the key. *)
Lemma resolve_succeeds records (known : gset ident) id arena :
  describable records known → id ∈ known → settled records arena →
  ∃ arena', ∀ depth, size (dom records ∖ dom arena) < depth →
    resolve depth records id arena = Some (inr id, arena').
Proof.
  intros Hknown Hid Hset.
  destruct (resolve_total (S (size (dom records ∖ dom arena))) records id arena)
    as [[[e|k] arena'] Hres]; [lia| |].
  - by apply (resolve_no_failure _ _ known) in Hres.
  - destruct (resolve_ok _ _ _ _ _ _ Hres Hset) as (-> & _).
    exists arena'. intros depth Hdepth. eapply resolve_more; [exact Hres|lia].
Qed.

(** The list node and what it refers to have descriptors. *)
Lemma describable_node_records :
  describable node_records {[ node_id; node_ptr_id; int_id ]}.
Proof.
  intros key Hkey.
  apply elem_of_union in Hkey as [Hkey|Hkey];
    [apply elem_of_union in Hkey as [Hkey|Hkey]|];
    apply elem_of_singleton in Hkey as ->.
  - exists node_record. eexists. split_and!; [reflexivity..|].
    intros key' Hin. apply list_elem_of_In in Hin. simpl in Hin.
    destruct Hin as [<-|[<-|[]]]; set_solver.
  - exists node_ptr_record. eexists. split_and!; [reflexivity..|].
    intros key' Hin. apply list_elem_of_In in Hin. simpl in Hin.
    destruct Hin as [<-|[]]; set_solver.
  - exists int_record. eexists. split_and!; [reflexivity..|].
    intros key' Hin. apply list_elem_of_In in Hin. simpl in Hin. done.
Qed.

(** The list node, resolved through the pointer to it: the pointer leads
    to the structure, whose member [next] leads to the slot of the same
    pointer, which leads to the slot of the same structure. *)
Example node_chain_returns :
  resolve 4 node_records node_ptr_id ∅ = Some (inr node_ptr_id, node_arena)
  ∧ deref node_arena (to_key node_ptr_id) = Some (Pointer (to_key node_id))
  ∧ (member_type <$> (match deref node_arena (to_key node_id) with
                      | Some (Struct _ _ members) => members
                      | _ => []
                      end)) = [to_key int_id; to_key node_ptr_id]
  ∧ resolve 1 node_records node_id node_arena = Some (inr node_id, node_arena).
Proof. split_and!; reflexivity. Qed.

End resolver_facts.

(** C7. For every set of debug records, also with records that refer to
    themselves or to each other, and every arena, the resolution of an
    identity returns, a descriptor or a failure, at every depth bound above
    the number of records that have no slot yet, and returns the same
    there; a reference to an identity that already has a slot, filled or
    in progress, returns that slot at once and changes nothing. Written
    without the placeholder, the resolver never returns on the list node,
    whatever the depth bound. *)
Theorem resolve_terminates :
  (∀ (records : gmap TypeResolver.ident TypeResolver.DebugRecord)
     (id : TypeResolver.ident)
     (arena : gmap TypeResolver.ident TypeResolver.slot),
     (∃ r arena',
        ∀ depth, (size (dom records ∖ dom arena) < depth)%nat →
          TypeResolver.resolve depth records id arena = Some (r, arena'))
     ∧ (∀ depth, is_Some (arena !! id) →
          TypeResolver.resolve (S depth) records id arena = Some (inr id, arena)))
  ∧ (∀ depth,
       TypeResolver.resolve_late depth TypeResolver.node_records
         TypeResolver.node_id ∅ = None).
Proof.
  split.
  - intros records id arena. split; [|intros depth; apply resolve_hit].
    destruct (resolve_total (S (size (dom records ∖ dom arena))) records id arena)
      as [[r arena'] Hres]; [lia|].
    exists r, arena'. intros depth Hdepth.
    eapply resolve_more; [exact Hres|lia].
  - intros depth. by apply resolve_late_node_diverges.
Qed.

Lemma resolve_terminates_witness :
  ∃ r arena',
    TypeResolver.resolve 4 TypeResolver.node_records TypeResolver.node_ptr_id ∅
      = Some (r, arena').
Proof.
  destruct (proj1 (proj1 resolve_terminates TypeResolver.node_records
                     TypeResolver.node_ptr_id ∅)) as (r & arena' & H).
  exists r, arena'. apply H. vm_compute. lia.
Defined.

(** C8. Take an arena whose filled slots hold the descriptors of their
    records and in which nothing is in progress. A resolution that
    succeeds returns the key of the record and leaves under it a filled
    slot that holds the descriptor of that record; resolving the record
    again returns the same key and the same arena, hence the same
    descriptor; every earlier slot is kept as it was and the arena is
    left in the same condition; and every chain of references of the
    debug information that starts at a record with a slot is, key by key,
    a chain of filled slots of the arena, so a chain that comes back to a
    record comes back to the one slot of that record. A resolution that
    fails leaves the arena as it was. And where the record and all it
    refers to have descriptors, the resolution does succeed, at every
    depth bound above the number of records without a slot. *)
Theorem resolve_shares
    (records : gmap TypeResolver.ident TypeResolver.DebugRecord)
    (id : TypeResolver.ident)
    (arena : gmap TypeResolver.ident TypeResolver.slot) :
  TypeResolver.settled records arena →
  TypeResolver.quiescent arena →
  (∀ depth k arena',
     TypeResolver.resolve depth records id arena = Some (inr k, arena') →
     k = id
     ∧ (∃ record descriptor,
          records !! id = Some record
          ∧ TypeResolver.describe record = inr descriptor
          ∧ arena' !! id = Some (TypeResolver.Ready descriptor))
     ∧ (∀ depth', TypeResolver.resolve (S depth') records id arena'
                    = Some (inr id, arena'))
     ∧ TypeResolver.extends arena arena'
     ∧ TypeResolver.settled records arena'
     ∧ TypeResolver.quiescent arena'
     ∧ (∀ from path, is_Some (arena' !! from) →
          TypeResolver.chain (λ a b, b ∈ TypeResolver.references records a)
            from path →
          TypeResolver.chain (TypeResolver.points_to arena') from path))
  ∧ (∀ depth e arena',
       TypeResolver.resolve depth records id arena = Some (inl e, arena') →
       arena' = arena)
  ∧ (∀ known : gset TypeResolver.ident,
       TypeResolver.describable records known → id ∈ known →
       ∃ arena', ∀ depth, (size (dom records ∖ dom arena) < depth)%nat →
         TypeResolver.resolve depth records id arena = Some (inr id, arena')).
Proof.
  intros Hset Hq. split_and!.
  - intros depth k arena' Hres.
    destruct (resolve_ok _ _ _ _ _ _ Hres Hset) as (-> & Hset' & Hext & [s Hs]).
    assert (TypeResolver.quiescent arena') as Hq'.
    { intros key Hkey. apply Hext in Hkey. by apply Hq in Hkey. }
    split_and!; [done| |by intros; apply resolve_hit|done|done|done|].
    + destruct s as [|descriptor]; [by apply Hq' in Hs|].
      destruct (Hset' _ _ Hs) as [(record & Hrec & Hdesc) _].
      by exists record, descriptor.
    + intros from path. by apply chain_resolved.
  - intros depth e arena'. apply resolve_failure.
  - intros known Hknown Hid. by eapply resolve_succeeds.
Qed.

Lemma resolve_shares_witness :
  TypeResolver.resolve 4 TypeResolver.node_records TypeResolver.node_ptr_id ∅
    = Some (inr TypeResolver.node_ptr_id, TypeResolver.node_arena)
  ∧ TypeResolver.chain (TypeResolver.points_to TypeResolver.node_arena)
      TypeResolver.node_ptr_id
      [TypeResolver.node_id; TypeResolver.node_ptr_id; TypeResolver.node_id].
Proof.
  destruct (resolve_shares TypeResolver.node_records TypeResolver.node_ptr_id ∅)
    as (Hok & _ & Hsucceeds).
  - intros key descriptor Hkey. by rewrite lookup_empty in Hkey.
  - intros key Hkey. by rewrite lookup_empty in Hkey.
  - destruct (Hsucceeds _ describable_node_records) as [arena' Hres];
      [set_solver|].
    specialize (Hres 4%nat ltac:(vm_compute; lia)).
    assert (arena' = TypeResolver.node_arena) as -> by
      (assert (TypeResolver.resolve 4 TypeResolver.node_records
                 TypeResolver.node_ptr_id ∅
               = Some (inr TypeResolver.node_ptr_id, TypeResolver.node_arena))
         as Hcomp by reflexivity; congruence).
    split; [exact Hres|].
    destruct (Hok _ _ _ Hres) as (_ & _ & _ & _ & _ & _ & Hchain).
    apply Hchain; [by eexists|].
    repeat split; apply list_elem_of_In; vm_compute; auto.
Defined.

Lemma main_paths_modules_then_executable_witness :
  ∃ exe,
    ["/lib/modules/4.15/kernel/fs/xfs/xfs.ko"; "/tmp/vmlinux"]
      = find_modules only_plain_modules "4.15" ++ [exe]
    ∧ last ["/lib/modules/4.15/kernel/fs/xfs/xfs.ko"; "/tmp/vmlinux"] = Some exe.
Proof.
  destruct (main_paths_modules_then_executable (λ _, false) only_plain_modules
              "4.15" kernel_args []
              ["/lib/modules/4.15/kernel/fs/xfs/xfs.ko"; "/tmp/vmlinux"])
    as (exe & H1 & H2 & _).
  - reflexivity.
  - exists exe. exact (conj H1 H2).
Defined.

(** * Further properties of the code *)

(** ** [read_memory] *)

Section read_memory_more.

Implicit Types (phdrs pre post : list Phdr) (phdr s : Phdr)
               (address size : Z) (c : core).

Lemma os_pread_not_unmapped size offset c msg c' :
  os_pread size offset c
    ≠ (inl (ValueError ("could not find memory segment containing 0x" +:+ msg)), c').
Proof. unfold os_pread. repeat case_match; intros [=]. Qed.

Lemma os_pread_core size offset c r c' :
  os_pread size offset c = (r, c') →
  core_bytes c' = core_bytes c
  ∧ (core_preads c' = core_preads c
     ∨ core_preads c' = core_preads c ++ [(size, offset)]).
Proof.
  unfold os_pread. repeat case_match; intros [= _ <-]; simpl; auto.
Qed.

Lemma find_phdr_filter phdrs address :
  find_phdr (filter (λ p, phdr_test p address = true) phdrs) address
    = find_phdr phdrs address.
Proof.
  induction phdrs as [|p phdrs IH]; [done|].
  rewrite filter_cons. case_decide as Hp; simpl.
  - by rewrite Hp.
  - apply not_true_is_false in Hp. by rewrite Hp.
Qed.

Lemma find_phdr_head_filter phdrs address :
  find_phdr phdrs address
    = head (filter (λ p, phdr_test p address = true) phdrs).
Proof.
  induction phdrs as [|p phdrs IH]; [done|].
  rewrite filter_cons. simpl. case_decide as Hp.
  - by rewrite Hp.
  - apply not_true_is_false in Hp. by rewrite Hp.
Qed.

Lemma read_memory_unmapped_inv phdrs address size c msg c' :
  read_memory phdrs address size c =
    (inl (ValueError ("could not find memory segment containing 0x" +:+ msg)), c') →
  msg = format_x address ∧ c' = c
  ∧ Forall (λ p, phdr_test p address = false) phdrs.
Proof.
  unfold read_memory.
  destruct (find_phdr phdrs address) as [phdr|] eqn:Hfind.
  - intros H. by apply os_pread_not_unmapped in H.
  - intros [= Hmsg <-]. apply find_phdr_None in Hfind.
    split_and!; [|done|done].
    simpl in Hmsg. by simplify_eq.
Qed.

End read_memory_more.

(** X1. [read_memory] raises its own error, the [ValueError] that names
    the address, exactly when no header of the table passes the test of the
    loop at the address, the empty table included; and then no read has
    been issued on the core file. *)
Theorem read_memory_unmapped_iff
    (phdrs : list Phdr) (address size : Z) (c : core) :
  (Forall (λ p, phdr_test p address = false) phdrs
   ↔ read_memory phdrs address size c =
       (inl (ValueError ("could not find memory segment containing 0x"
                           +:+ format_x address)), c))
  ∧ (∀ msg c',
       read_memory phdrs address size c =
         (inl (ValueError ("could not find memory segment containing 0x" +:+ msg)), c') →
       msg = format_x address ∧ c' = c
       ∧ Forall (λ p, phdr_test p address = false) phdrs).
Proof.
  split; [split|].
  - intros Hall. by apply read_memory_unmapped, find_phdr_None.
  - intros H. by apply read_memory_unmapped_inv in H as (_ & _ & ?).
  - intros msg c'. apply read_memory_unmapped_inv.
Qed.

(** X2. A call of [read_memory] never changes the bytes of the core file
    and issues at most one positioned read; when it issues one, the read
    is for the size asked, and its file position lies between [p_offset]
    and [p_offset + p_memsz], both included, of a header of the table that
    passes the test of the loop at the address. *)
Theorem read_memory_one_read_within_segment
    (phdrs : list Phdr) (address size : Z) (c c' : core)
    (r : result (list Byte.byte)) :
  read_memory phdrs address size c = (r, c') →
  core_bytes c' = core_bytes c
  ∧ (core_preads c' = core_preads c
     ∨ ∃ phdr offset,
         core_preads c' = core_preads c ++ [(size, offset)]
         ∧ phdr ∈ phdrs
         ∧ phdr_test phdr address = true
         ∧ p_offset phdr ≤ offset ≤ p_offset phdr + p_memsz phdr).
Proof.
  unfold read_memory. destruct (find_phdr phdrs address) as [phdr|] eqn:Hfind.
  - intros [Hbytes [Hsame|Hread]]%os_pread_core; [by auto|].
    split; [done|]. right.
    apply find_phdr_Some in Hfind as (pre & post & -> & _ & Htest).
    exists phdr, (p_offset phdr + address - p_vaddr phdr).
    apply phdr_test_spec in Htest as Hrange.
    split_and!; [done| |done|lia|lia].
    apply elem_of_app. right. apply list_elem_of_here.
  - intros [= _ <-]. auto.
Qed.

Lemma read_memory_one_read_within_segment_witness :
  core_bytes (mkCore (paged_image 1) [(4, 8)]) = core_bytes (opened (paged_image 1))
  ∧ (core_preads (mkCore (paged_image 1) [(4, 8)])
       = core_preads (opened (paged_image 1))
     ∨ ∃ phdr offset,
         core_preads (mkCore (paged_image 1) [(4, 8)])
           = core_preads (opened (paged_image 1)) ++ [(4, offset)]
         ∧ phdr ∈ [segment 0x1000 0x1000 0]
         ∧ phdr_test phdr 0x1008 = true
         ∧ p_offset phdr ≤ offset ≤ p_offset phdr + p_memsz phdr).
Proof.
  apply (read_memory_one_read_within_segment [segment 0x1000 0x1000 0]
           0x1008 4 (opened (paged_image 1)) (mkCore (paged_image 1) [(4, 8)])
           (inr (take 4 (drop 8 (paged_image 1))))).
  reflexivity.
Defined.

(** X3. Only the first header, in table order, that passes the test of
    the loop decides a call: the headers that fail the test, and every
    header after the first one that passes, can be dropped from the table
    without changing what the call returns or reads. *)
Theorem read_memory_first_passing_header
    (phdrs : list Phdr) (address size : Z) (c : core) :
  read_memory phdrs address size c
    = read_memory (filter (λ p, phdr_test p address = true) phdrs) address size c
  ∧ read_memory phdrs address size c
    = read_memory (take 1 (filter (λ p, phdr_test p address = true) phdrs))
        address size c.
Proof.
  unfold read_memory. rewrite find_phdr_filter. split; [done|].
  rewrite (find_phdr_head_filter phdrs).
  destruct (filter _ phdrs) as [|p rest] eqn:Hf; [done|]. simpl.
  assert (p ∈ filter (λ p, phdr_test p address = true) phdrs) as Hin
    by (rewrite Hf; apply list_elem_of_here).
  apply list_elem_of_filter in Hin as [Hp _]. by rewrite Hp.
Qed.

(** X4. Two reads that follow each other, are decided by the same
    header and together ask for no more than one read transfers
    ([MAX_RW_COUNT] bytes) return, one after the other, the bytes of the
    one read that covers both: there is no bound at which the longer read
    is cut, except the end of the file. *)
Theorem read_memory_split
    (phdrs : list Phdr) (phdr : Phdr) (address n m : Z) (c c1 c2 : core)
    (first second : list Byte.byte) :
  0 ≤ n → 0 ≤ m → n + m ≤ MAX_RW_COUNT →
  0 ≤ p_offset phdr →
  p_offset phdr + address - p_vaddr phdr + n + m ≤ OFF_T_MAX →
  find_phdr phdrs address = Some phdr →
  find_phdr phdrs (address + n) = Some phdr →
  read_memory phdrs address n c = (inr first, c1) →
  read_memory phdrs (address + n) m c1 = (inr second, c2) →
  (read_memory phdrs address (n + m) c).1 = inr (first ++ second).
Proof.
  intros Hn Hm Hmax Hoff Hend Hfind Hfind' Hfirst Hsecond.
  assert (p_vaddr phdr ≤ address) as Hlow.
  { apply find_phdr_Some in Hfind as (? & ? & _ & _ & Htest).
    apply phdr_test_spec in Htest. lia. }
  rewrite (read_memory_mapped _ _ _ _ _ Hfind), os_pread_ok in Hfirst by lia.
  injection Hfirst as <- <-.
  rewrite (read_memory_mapped _ _ _ _ _ Hfind'), os_pread_ok in Hsecond by lia.
  injection Hsecond as <- _.
  rewrite (read_memory_mapped _ _ _ _ _ Hfind), os_pread_ok by lia. simpl.
  f_equal. rewrite Z2Nat.inj_add by lia.
  rewrite <- take_take_drop. f_equal. rewrite drop_drop. do 2 f_equal. lia.
Qed.

Lemma read_memory_split_witness :
  (read_memory [segment 0x1000 0x1000 0] 0x1000 (4 + 4) (opened (paged_image 1))).1
    = inr (take 4 (paged_image 1) ++ take 4 (drop 4 (paged_image 1))).
Proof.
  apply (read_memory_split [segment 0x1000 0x1000 0] (segment 0x1000 0x1000 0)
           0x1000 4 4 (opened (paged_image 1))
           (mkCore (paged_image 1) [(4, 0)])
           (mkCore (paged_image 1) [(4, 0); (4, 4)])).
  - lia.
  - lia.
  - unfold MAX_RW_COUNT; lia.
  - simpl; lia.
  - unfold OFF_T_MAX; simpl; lia.
  - reflexivity.
  - reflexivity.
  - reflexivity.
  - reflexivity.
Defined.

(** The hexadecimal text of an address can be read back. *)
Lemma format_x_inj (a b : Z) : format_x a = format_x b → a = b.
Proof.
  assert (∀ z, NilZero.int_of_string (format_x z) = Some (Z.to_hex_int z)) as Hback.
  { intros z. apply NilZero.isi.
    - intros Hz. pose proof (HexadecimalZ.of_to z) as Hof. rewrite Hz in Hof.
      simpl in Hof. subst z. discriminate Hz.
    - intros Hz. pose proof (HexadecimalZ.of_to z) as Hof. rewrite Hz in Hof.
      simpl in Hof. subst z. discriminate Hz. }
  intros Heq. apply HexadecimalZ.to_int_inj.
  pose proof (Hback a) as Ha. rewrite Heq, Hback in Ha. congruence.
Qed.

(** X5. The error of [read_memory] identifies the address: two calls that
    raise it with the same message were made for the same address. *)
Theorem read_memory_error_names_address
    (phdrs phdrs' : list Phdr) (address address' size size' : Z)
    (c c' d d' : core) (msg : string) :
  read_memory phdrs address size c =
    (inl (ValueError ("could not find memory segment containing 0x" +:+ msg)), d) →
  read_memory phdrs' address' size' c' =
    (inl (ValueError ("could not find memory segment containing 0x" +:+ msg)), d') →
  address = address'.
Proof.
  intros H H'.
  apply read_memory_unmapped_inv in H as (-> & _ & _).
  apply read_memory_unmapped_inv in H' as (Heq & _ & _).
  by apply format_x_inj.
Qed.

Lemma read_memory_error_names_address_witness : 0x3000 = 0x3000.
Proof.
  apply (read_memory_error_names_address [segment 0x1000 0x1000 0] []
           0x3000 0x3000 1 8 (opened []) (opened []) (opened []) (opened [])
           "3000").
  - reflexivity.
  - reflexivity.
Defined.

(** ** [find_vmlinux], [find_modules] and the start of [main] *)

Section main_more.

Variable os_path_exists : string → bool.
Variable glob_glob : string → list string.

Lemma find_first_true (paths : list string) path :
  List.find os_path_exists paths = Some path →
  ∃ pre post, paths = pre ++ path :: post
    ∧ Forall (λ p, os_path_exists p = false) pre
    ∧ os_path_exists path = true.
Proof.
  induction paths as [|p paths IH]; simpl; [done|].
  destruct (os_path_exists p) eqn:Hp.
  - intros [= <-]. by exists [], paths.
  - intros (pre & post & -> & Hpre & Hpath)%IH.
    exists (p :: pre), post. split_and!; [done|by constructor|done].
Qed.

Lemma find_none_false (paths : list string) :
  List.find os_path_exists paths = None ↔
  Forall (λ p, os_path_exists p = false) paths.
Proof.
  induction paths as [|p paths IH]; simpl.
  - split; [constructor|done].
  - destruct (os_path_exists p) eqn:Hp.
    + split; [done|]. intros [? _]%Forall_cons_1. congruence.
    + rewrite IH. split; [by constructor|by intros [_ ?]%Forall_cons_1].
Qed.

Lemma find_vmlinux_paths release :
  find_vmlinux os_path_exists release =
    match List.find os_path_exists (vmlinux_paths release) with
    | Some path => inr path
    | None => inl (ValueError "")
    end.
Proof. done. Qed.

Lemma find_modules_patterns release :
  find_modules glob_glob release =
    match glob_glob (debug_modules_pattern release) with
    | [] => glob_glob (plain_modules_pattern release)
    | paths => paths
    end.
Proof.
  unfold find_modules, debug_modules_pattern, plain_modules_pattern. simpl.
  destruct (glob_glob _); [|done]. by destruct (glob_glob _).
Qed.

Lemma find_vmlinux_error release :
  find_vmlinux os_path_exists release = inl (ValueError "") ↔
  Forall (λ p, os_path_exists p = false) (vmlinux_paths release).
Proof.
  rewrite find_vmlinux_paths, <- find_none_false.
  destruct (List.find _ _); split; done.
Qed.


End main_more.

(** X6. A path [find_vmlinux] returns is one of its three candidates, it
    exists, and no candidate tried before it exists: the debug package's
    image is preferred to the one in /boot, and that one to the one of the
    build directory. *)
Theorem find_vmlinux_first_existing
    (os_path_exists : string → bool) (release path : string) :
  find_vmlinux os_path_exists release = inr path →
  os_path_exists path = true
  ∧ ∃ pre post, vmlinux_paths release = pre ++ path :: post
      ∧ Forall (λ p, os_path_exists p = false) pre.
Proof.
  rewrite find_vmlinux_paths.
  destruct (List.find _ _) as [found|] eqn:Hfind; [|done].
  intros [= <-]. apply find_first_true in Hfind as (pre & post & ? & ? & ?).
  split; [done|]. by exists pre, post.
Qed.

Lemma find_vmlinux_first_existing_witness :
  only_file "/boot/vmlinux-4.15" "/boot/vmlinux-4.15" = true
  ∧ ∃ pre post, vmlinux_paths "4.15" = pre ++ "/boot/vmlinux-4.15" :: post
      ∧ Forall (λ p, only_file "/boot/vmlinux-4.15" p = false) pre.
Proof.
  apply (find_vmlinux_first_existing (only_file "/boot/vmlinux-4.15") "4.15").
  reflexivity.
Defined.

(** X7. [find_vmlinux] raises, and then a [ValueError] without message,
    exactly when none of its three candidates exists. *)
Theorem find_vmlinux_raises_iff
    (os_path_exists : string → bool) (release : string) :
  (is_ok (find_vmlinux os_path_exists release) = false
   ↔ Forall (λ p, os_path_exists p = false) (vmlinux_paths release))
  ∧ (∀ e, find_vmlinux os_path_exists release = inl e → e = ValueError "").
Proof.
  split.
  - rewrite <- find_vmlinux_error.
    rewrite find_vmlinux_paths. destruct (List.find _ _); split; done.
  - intros e. rewrite find_vmlinux_paths. destruct (List.find _ _); congruence.
Qed.

(** X8. [find_modules] returns the files of one pattern only: those of
    the debug pattern when there are any, whatever the plain pattern
    matches, otherwise those of the plain pattern; it returns the empty
    list exactly when neither pattern matches a file. *)
Theorem find_modules_one_pattern
    (glob_glob : string → list string) (release : string) :
  (glob_glob (debug_modules_pattern release) ≠ [] →
     find_modules glob_glob release = glob_glob (debug_modules_pattern release))
  ∧ (glob_glob (debug_modules_pattern release) = [] →
     find_modules glob_glob release = glob_glob (plain_modules_pattern release))
  ∧ (find_modules glob_glob release = []
     ↔ glob_glob (debug_modules_pattern release) = []
       ∧ glob_glob (plain_modules_pattern release) = []).
Proof.
  rewrite find_modules_patterns.
  destruct (glob_glob (debug_modules_pattern release)) as [|p paths].
  - split; [done|]. split; [done|]. split; [done|by intros [_ ?]].
  - split; [done|]. split; [done|]. split; [done|by intros [? _]].
Qed.


(** X10. With [--kernel] and an executable named on the command line,
    [main] always goes on to construct the debug index, on the modules it
    found followed by that executable: the path is handed over as it is,
    whether or not a file exists there, and no vmlinux file is looked
    for. *)
Theorem main_paths_named_executable
    (os_path_exists : string → bool) (glob_glob : string → list string)
    (platform_release : string) (args : Namespace) (exe : string) :
  kernel args = true →
  executable args = Some exe →
  (main_paths os_path_exists glob_glob platform_release args).2
    = inr (find_modules glob_glob platform_release ++ [exe])
  ∧ ∀ other_files : string → bool,
      main_paths other_files glob_glob platform_release args
        = main_paths os_path_exists glob_glob platform_release args.
Proof.
  intros Hk Hexe. unfold main_paths. by rewrite Hk, Hexe.
Qed.

Lemma main_paths_named_executable_witness :
  (main_paths (λ _, false) only_plain_modules "4.15" kernel_args).2
    = inr (find_modules only_plain_modules "4.15" ++ ["/tmp/vmlinux"]).
Proof.
  refine (proj1 (main_paths_named_executable (λ _, false) only_plain_modules
                   "4.15" kernel_args "/tmp/vmlinux" _ _)); reflexivity.
Defined.

(** X11. When [main] constructs the debug index it has printed either
    nothing or the one line that no kernel modules were found; it prints
    that line exactly when no module was found and no script is to be run,
    and the list handed over is then the executable alone, the one named
    on the command line or else the one [find_vmlinux] returned. *)
Theorem main_paths_warning
    (os_path_exists : string → bool) (glob_glob : string → list string)
    (platform_release : string) (args : Namespace)
    (err paths : list string) :
  main_paths os_path_exists glob_glob platform_release args = (err, inr paths) →
  ∃ exe,
    (executable args = Some exe
     ∨ (executable args = None
        ∧ find_vmlinux os_path_exists platform_release = inr exe))
    ∧ paths = find_modules glob_glob platform_release ++ [exe]
    ∧ (err = [] ∨ err = ["Could not find kernel modules; continuing anyways"])
    ∧ (err ≠ [] ↔ find_modules glob_glob platform_release = [] ∧ script args = [])
    ∧ (err ≠ [] → paths = [exe]).
Proof.
  unfold main_paths. destruct (kernel args); simpl; [|done].
  set (modules := find_modules glob_glob platform_release).
  intros Hmain.
  assert (∃ exe, (executable args = Some exe
                  ∨ (executable args = None
                     ∧ find_vmlinux os_path_exists platform_release = inr exe))
                 ∧ paths = modules ++ [exe]
                 ∧ err = if bool_decide (modules = []) && bool_decide (script args = [])
                         then ["Could not find kernel modules; continuing anyways"]
                         else []) as (exe & Hexe & -> & ->).
  { destruct (executable args) as [exe|]; simpl in Hmain.
    - injection Hmain as <- <-. exists exe. split; [by left|done].
    - destruct (find_vmlinux os_path_exists platform_release) as [e|exe];
        simpl in Hmain; [done|].
      injection Hmain as <- <-. exists exe. split; [by right|done]. }
  exists exe. split; [done|]. split; [done|].
  destruct (bool_decide (modules = [])) eqn:Hm;
    destruct (bool_decide (script args = [])) eqn:Hs; simpl;
    try apply bool_decide_eq_true in Hm; try apply bool_decide_eq_true in Hs;
    try apply bool_decide_eq_false in Hm; try apply bool_decide_eq_false in Hs.
  - split_and!; [by right|done|by rewrite Hm].
  - split_and!; [by left| |done]. split; [done|by intros [_ ?]].
  - split_and!; [by left| |done]. split; [done|by intros [? _]].
  - split_and!; [by left| |done]. split; [done|by intros [? _]].
Qed.

Lemma main_paths_warning_witness :
  ∃ exe,
    (executable kernel_args = Some exe
     ∨ (executable kernel_args = None
        ∧ find_vmlinux (λ _, false) "4.15" = inr exe))
    ∧ ["/tmp/vmlinux"] = find_modules (λ _, []) "4.15" ++ [exe]
    ∧ (["Could not find kernel modules; continuing anyways"] ≠ []
       → ["/tmp/vmlinux"] = [exe]).
Proof.
  destruct (main_paths_warning (λ _, false) (λ _, []) "4.15"
              kernel_args ["Could not find kernel modules; continuing anyways"]
              ["/tmp/vmlinux"]) as (exe & H1 & H2 & _ & _ & H5).
  - reflexivity.
  - exists exe. exact (conj H1 (conj H2 H5)).
Defined.

(** ** [symbols[name][-1]] *)

(** X12. The first statement of [lookup_variable] returns an address
    exactly when the table holds a non-empty list for the name, and then
    the last element of the list; it raises [KeyError] with the name
    exactly when the table has no entry for the name, and [IndexError]
    exactly when the entry is the empty list. *)
Theorem symbol_address_cases
    (symbols : gmap string (list Z)) (name : string) :
  (∀ address, symbol_address symbols name = inr address
              ↔ ∃ l, symbols !! name = Some (l ++ [address]))
  ∧ (∀ key, symbol_address symbols name = inl (KeyError key)
            ↔ key = name ∧ symbols !! name = None)
  ∧ (symbol_address symbols name = inl IndexError
     ↔ symbols !! name = Some [])
  ∧ (∀ e, symbol_address symbols name = inl e →
          e = KeyError name ∨ e = IndexError).
Proof.
  unfold symbol_address, dict_getitem, list_last.
  destruct (symbols !! name) as [l|]; simpl.
  - destruct l as [|x l _] using rev_ind; simpl.
    + split_and!.
      * intros address. split; [done|]. intros [l [= Hl]]. by destruct l.
      * intros key. split; [done|]. by intros [_ ?].
      * done.
      * intros e [= <-]. by right.
    + rewrite last_snoc. simpl. split_and!.
      * intros address. split.
        -- intros [= <-]. by exists l.
        -- intros [l' [= Hl]]. apply app_inj_tail in Hl as [_ ->]. done.
      * intros key. split; [done|]. by intros [_ ?].
      * split; [done|]. intros [= Hl]. by destruct l.
      * done.
  - split_and!.
    + intros address. split; [done|]. by intros [l ?].
    + intros key. split; [by intros [= <-]|by intros [-> _]].
    + done.
    + intros e [= <-]. by left.
Qed.

(** ** The order of the segment table *)

(** X13. The order of the table matters only where ranges meet: when at
    most one header passes the test of the loop at the address, every
    reordering of the table gives the same call, result and read. *)
Theorem read_memory_order_irrelevant
    (phdrs phdrs' : list Phdr) (address size : Z) (c : core) :
  phdrs ≡ₚ phdrs' →
  (length (filter (λ p, phdr_test p address = true) phdrs) ≤ 1)%nat →
  read_memory phdrs' address size c = read_memory phdrs address size c.
Proof.
  intros Hperm Hlen. unfold read_memory.
  rewrite !find_phdr_head_filter.
  assert (filter (λ p, phdr_test p address = true) phdrs
          ≡ₚ filter (λ p, phdr_test p address = true) phdrs') as Hf
    by (by apply filter_Permutation).
  destruct (filter (λ p, phdr_test p address = true) phdrs) as [|p [|q rest]];
    simpl in Hlen; [| |lia].
  - apply Permutation_nil_l in Hf. by rewrite <- Hf.
  - apply Permutation_singleton_l in Hf. by rewrite <- Hf.
Qed.

Lemma read_memory_order_irrelevant_witness :
  read_memory [segment 0x3000 0x1000 0x1000; segment 0x1000 0x1000 0] 0x1008 4
    (opened (paged_image 1))
  = read_memory [segment 0x1000 0x1000 0; segment 0x3000 0x1000 0x1000] 0x1008 4
      (opened (paged_image 1)).
Proof.
  apply read_memory_order_irrelevant.
  - apply Permutation_swap.
  - simpl. lia.
Defined.
